(** * Semantic match and rerank pipeline: a shallow embedding

    The development follows two source files,
    [app/startup/load_embeddings.py] (shard loader and vector index) and
    [app/services/match_service.py] (candidate fetcher, staged selector,
    seniority classifier, match pipeline).  Python values are modelled as
    the code uses them: [int] as [Z], [str] as UTF-8 encoded [string],
    [dict] keyed by integers as [gmap Z], [set] of integers as [gset Z],
    exceptions as values of [exc] threaded through a small monad. *)

From stdpp Require Import base option list gmap sets strings pretty sorting.
From Stdlib Require Import ZArith Lia SpecFloat.

Set Warnings "-register-all".

Local Open Scope string_scope.
Local Open Scope Z_scope.

(** ** Python runtime: exceptions, slices, truthiness *)

Module Py.

Inductive exc_class :=
| RuntimeError | ValueError | TypeError | AttributeError | KeyError
| JSONDecodeError | FileNotFoundError | AssertionError
| RecursionError | PyMongoError.

Record exc := Exc { exc_cls : exc_class; exc_msg : string }.

(** [except RuntimeError]: [RecursionError] derives from [RuntimeError];
    none of the other classes raised here does. *)
Definition is_RuntimeError (e : exc) : bool :=
  match exc_cls e with RuntimeError | RecursionError => true | _ => false end.

Definition is_ValueError (e : exc) : bool :=
  match exc_cls e with ValueError | JSONDecodeError => true | _ => false end.

Inductive result (A : Type) :=
| Ok (a : A)
| Raise (e : exc).
Arguments Ok {A} a.
Arguments Raise {A} e.

(** [l[:k]]: a negative stop counts from the end. *)
Definition slice_to {A} (l : list A) (k : Z) : list A :=
  if decide (0 ≤ k) then take (Z.to_nat k) l
  else take (length l - Z.to_nat (- k)) l.

(** [a or b] on lists: the empty list is falsy. *)
Definition or_list {A} (a b : list A) : list A :=
  match a with [] => b | _ => a end.

(** [(v or "")] on an optional string. *)
Definition or_empty (v : option string) : string := default "" v.

(** Truthiness of a string. *)
Definition truthy (s : string) : bool :=
  match s with EmptyString => false | _ => true end.

(** [needle in haystack] on [str]. *)
Fixpoint contains (needle haystack : string) : bool :=
  String.prefix needle haystack ||
  match haystack with
  | EmptyString => false
  | String _ rest => contains needle rest
  end.

(** [sep.join(parts)]. *)
Definition join (sep : string) (parts : list string) : string :=
  String.concat sep parts.

(** The builtin string methods whose Unicode tables are not part of the
    repository. [str_format] is [template.format(limit=n)]; it raises on a
    template with stray braces or other field names. [str_take n s] is
    [s[:n]], counted in code points. *)
Class StrOps := {
  str_lower : string → string;
  str_strip : string → string;
  str_format : string → Z → option string;
  str_take : nat → string → string;
}.

End Py.
Import Py.

(** ** The effect monad: a counter of calls to external services, and
    exceptions.  The counter lets the environment answer two identical
    prompts differently. *)

Definition M (A : Type) : Type := nat → nat * result A.

Global Instance M_ret : MRet M := λ A a n, (n, Ok a).
Global Instance M_bind : MBind M := λ A B f m n,
  match m n with
  | (n', Ok a) => f a n'
  | (n', Raise e) => (n', Raise e)
  end.

Global Instance M_fmap : FMap M := λ A B f m n,
  match m n with
  | (n', Ok a) => (n', Ok (f a))
  | (n', Raise e) => (n', Raise e)
  end.

Definition raise {A} (e : exc) : M A := λ n, (n, Raise e).

Definition try_except {A} (body : M A) (handler : exc → M A) : M A := λ n,
  match body n with
  | (n', Raise e) => handler e n'
  | r => r
  end.

Definition run {A} (m : M A) : result A := snd (m 0%nat).

Global Instance result_ret : MRet result := λ A a, Ok a.
Global Instance result_bind : MBind result := λ A B f r,
  match r with Ok a => f a | Raise e => Raise e end.

Definition lift {A} (r : result A) : M A := λ n, (n, r).

(** ** JSON values as [json.loads] returns them *)

Module Json.

Inductive json :=
| JNull
| JBool (b : bool)
| JInt (z : Z)
| JFloat (repr : string)
| JString (s : string)
| JArray (items : list json)
| JObject (members : list (string * json)).

(** A [dict] built from members in reading order: the last binding of a
    key wins. *)
Fixpoint dict_get (k : string) (members : list (string * json)) : option json :=
  match members with
  | [] => None
  | (k', v) :: rest =>
      match dict_get k rest with
      | Some v' => Some v'
      | None => if decide (k = k') then Some v else None
      end
  end.

(** [int(x)] for the items that pass [isinstance(x, int)]; [bool] is a
    subclass of [int]. *)
Definition as_int (x : json) : option Z :=
  match x with
  | JInt z => Some z
  | JBool b => Some (if b then 1 else 0)
  | _ => None
  end.

(** [json_loads s] is [None] when [json.loads(s)] raises, and
    [json_error s] is the exception it then raises: a [JSONDecodeError]
    for a text that is not JSON, a [RecursionError] for a text that nests
    deeper than the interpreter lets the scanner recurse. *)
Class JsonLib := {
  json_loads : string → option json;
  json_error : string → exc;
}.

End Json.
Import Json.

(** ** External services (app/services/yandex_sdk.py) *)

Record message := Message { role : string; text : string }.

(** What the cloud SDK does on one call. *)
Inductive sdk_outcome :=
| SdkRaises (msg : string)
| SdkNoResult
| SdkText (s : string).


(** ** NumPy arrays (the operations used by load_embeddings.py) *)

Module Np.

(** An array is its shape and its elements in row-major order; NumPy keeps
    [length data = product shape] ([wf]). *)
Record ndarray (A : Type) := NdArray { shape : list nat; data : list A }.
Arguments NdArray {A} shape data.
Arguments shape {A}.
Arguments data {A}.

Definition product (dims : list nat) : nat := foldr Nat.mul 1%nat dims.

Definition wf {A} (a : ndarray A) : Prop :=
  length (data a) = product (shape a).

Definition ndim {A} (a : ndarray A) : nat := length (shape a).

(** [a.size], the number of elements. *)
Definition numel {A} (a : ndarray A) : nat := length (data a).

(** [len(a)] and [a.shape[0]]: both raise on a 0-d array. *)
Definition len {A} (a : ndarray A) : option nat := head (shape a).

(** [np.arange(n)]. *)
Definition arange (n : nat) : ndarray Z :=
  NdArray [n] (Z.of_nat <$> seq 0 n).

(** [a.reshape(1, -1)]. *)
Definition reshape_row {A} (a : ndarray A) : ndarray A :=
  NdArray [1%nat; numel a] (data a).

(** [a.flatten()]. *)
Definition flatten {A} (a : ndarray A) : ndarray A :=
  NdArray [numel a] (data a).

(** [np.array([a.item()])] for a 0-d array. *)
Definition wrap_item {A} (a : ndarray A) : ndarray A :=
  NdArray [1%nat] (take 1 (data a)).

(** [a[:m]] for [m >= 0] on an array with at least one axis. *)
Definition take_rows {A} (m : nat) (a : ndarray A) : ndarray A :=
  match shape a with
  | [] => a
  | n :: trail =>
      NdArray (Nat.min m n :: trail)
              (take (Nat.min m n * product trail)%nat (data a))
  end.

(** [a.tolist()] for a 1-D array. *)
Definition tolist {A} (a : ndarray A) : list A := data a.

Definition atleast_2d {A} (a : ndarray A) : ndarray A :=
  match shape a with
  | [] => NdArray [1%nat; 1%nat] (data a)
  | [n] => NdArray [1%nat; n] (data a)
  | _ => a
  end.

Definition rows {A} (a : ndarray A) : nat := default 0%nat (head (shape a)).

(** [np.vstack(arrays)]: [None] stands for its [ValueError] (no array, or
    trailing dimensions that disagree). *)
Definition vstack {A} (arrays : list (ndarray A)) : option (ndarray A) :=
  match atleast_2d <$> arrays with
  | [] => None
  | a :: rest =>
      if forallb (λ b, bool_decide (tail (shape b) = tail (shape a))) rest
      then Some (NdArray (sum_list (rows <$> (a :: rest)) :: tail (shape a))
                         (concat (data <$> (a :: rest))))
      else None
  end.

(** Floating-point scalars and the NumPy routines on them.  [linalg_norm]
    is [np.linalg.norm] of the flattened array, [f_is_zero x] is [x == 0],
    [eps] is the constant [1e-12]. *)
Class Numpy := {
  F : Type;
  linalg_norm : list F → F;
  f_is_zero : F → bool;
  f_div : F → F → F;
  f_add : F → F → F;
  eps : F;
  astype_float32 : F → F;
}.

End Np.
Import Np.

(** ** FAISS: the graph index is opaque.  [index_build] is
    [IndexHNSWFlat(dim, 32)] followed by [add]; [index_search ix q k] is the
    row [indices[0]] of [ix.search(q, k)], or the exception the library
    raises; [None] from [index_build] stands for an exception. *)
Class Faiss `{Numpy} := {
  Index : Type;
  index_build : ndarray F → option Index;
  index_search : Index → list F → Z → result (list Z);
}.

(** The world outside the process: what the [n]-th call to an external
    service does.  [sdk_completions n structured messages] is a run of the
    completion model ([structured] tells whether a response schema and a
    token budget were configured); [sdk_embeddings n text] is a run of the
    embeddings model, the error message when it raises. *)
Record world `{Numpy} := World {
  sdk_completions : nat → bool → list message → sdk_outcome;
  sdk_embeddings : nat → string → string + list F;
}.

(** ** app/startup/load_embeddings.py *)

Module LoadEmbeddings.
Section WithLibraries.
Context `{FA : Faiss}.

(** The id file that goes with a vector batch. *)
Inductive indices_file :=
| IndicesAbsent
| IndicesUnreadable
| IndicesLoaded (a : ndarray Z).

(** One [embeddings_batch_<n>.npy]: the integer its name ends in ([None]
    when [int()] rejects it), what [np.load] returns for it ([None] when
    it raises) and its id file. *)
Record batch_file := BatchFile {
  batch_num : option Z;
  embeddings_load : option (ndarray F);
  indices : indices_file;
}.

(** [sorted(files, key=...)]: stable, ascending. *)
Fixpoint insert_sorted (x : Z * batch_file) (l : list (Z * batch_file))
  : list (Z * batch_file) :=
  match l with
  | [] => [x]
  | y :: l' => if decide (x.1 ≤ y.1) then x :: y :: l'
               else y :: insert_sorted x l'
  end.

Definition sort_batches (l : list (Z * batch_file)) : list (Z * batch_file) :=
  foldr insert_sorted [] l.

Definition keyed (files : list batch_file) : option (list (Z * batch_file)) :=
  mapM (λ f, n ← batch_num f; Some (n, f)) files.

(** The body of the loop over the batch files: [None] when the [try]
    block raises and the batch is skipped. *)
Definition load_batch (f : batch_file) : option (ndarray F * list Z) :=
  embeddings_batch ← embeddings_load f;
  indices_batch ←
    match indices f with
    | IndicesLoaded a => Some a
    | IndicesUnreadable => None
    | IndicesAbsent => arange <$> len embeddings_batch
    end;
  let embeddings_batch :=
    if decide (ndim embeddings_batch = 1%nat) then reshape_row embeddings_batch
    else embeddings_batch in
  let indices_batch :=
    if decide (ndim indices_batch = 0%nat) then wrap_item indices_batch
    else indices_batch in
  n ← len embeddings_batch;
  let min_size := Nat.min n (rows (flatten indices_batch)) in
  let embeddings_batch := take_rows min_size embeddings_batch in
  let indices_batch := take_rows min_size (flatten indices_batch) in
  Some (embeddings_batch, tolist indices_batch).

Definition _load_all_embeddings (files : list batch_file)
  : result (ndarray F * list Z) :=
  match keyed files with
  | None => Raise (Exc ValueError "invalid literal for int()")
  | Some ks =>
      let embedding_files := (sort_batches ks).*2 in
      match embedding_files with
      | [] => Raise (Exc FileNotFoundError "No embedding files")
      | _ =>
          let loaded := omap load_batch embedding_files in
          let arrays := loaded.*1 in
          let ids := concat loaded.*2 in
          match arrays with
          | [] => Raise (Exc ValueError "No embeddings loaded")
          | _ =>
              match vstack arrays with
              | None => Raise (Exc ValueError "all the input array dimensions must match")
              | Some X => Ok (X, ids)
              end
          end
      end
  end.

(** The module globals. *)
Record globals := Globals {
  FAISS_AVAILABLE : bool;
  faiss_index : option Index;
  vacancy_ids : list Z;
}.

Definition unbuilt (g : globals) : globals :=
  Globals (FAISS_AVAILABLE g) None [].

(** [X / (np.linalg.norm(X, axis=1, keepdims=True) + 1e-12)] on a 2-D
    array, row by row. *)
Fixpoint chunks {A} (d : nat) (n : nat) (l : list A) : list (list A) :=
  match n with
  | O => []
  | S n' => take d l :: chunks d n' (drop d l)
  end.

Definition normalize_row (r : list F) : list F :=
  let norm := f_add (linalg_norm r) eps in
  (λ x, f_div x norm) <$> r.

Definition normalize_rows (X : ndarray F) : option (ndarray F) :=
  match shape X with
  | [n; d] => Some (NdArray [n; d]
                (concat (normalize_row <$> chunks d n (data X))))
  | _ => None
  end.

(** [build_faiss]: [dir] is the listing of the embeddings directory,
    [None] when the directory does not exist. *)
Definition build_faiss (dir : option (list batch_file)) (g : globals) : globals :=
  if negb (FAISS_AVAILABLE g) then unbuilt g
  else match dir with
  | None => unbuilt g
  | Some files =>
      match _load_all_embeddings files with
      | Raise _ => unbuilt g
      | Ok (X, ids) =>
          if decide (length ids = 0%nat) then unbuilt g
          else match normalize_rows X with
          | None => unbuilt g
          | Some X_normalized =>
              match index_build (NdArray (shape X_normalized)
                                   (astype_float32 <$> data X_normalized)) with
              | None => unbuilt g
              | Some index => Globals (FAISS_AVAILABLE g) (Some index) ids
              end
          end
      end
  end.

(** [vacancy_ids[int(idx)] for idx in row if 0 <= int(idx) < len(vacancy_ids)]. *)
Definition map_positions (ids : list Z) (row : list Z) : list Z :=
  omap (λ idx, if decide (0 ≤ idx < Z.of_nat (length ids))
               then ids !! Z.to_nat idx else None) row.

Definition search_top_k (g : globals) (query_vec : list F) (k : Z)
  : result (list Z) :=
  if negb (FAISS_AVAILABLE g) then Raise (Exc RuntimeError "FAISS not installed")
  else match faiss_index g with
  | None => Raise (Exc RuntimeError "FAISS index not built. Check embeddings are loaded.")
  | Some index =>
      if decide (length (vacancy_ids g) = 0%nat)
      then Raise (Exc RuntimeError "No vacancies in index")
      else
        let query_norm := linalg_norm query_vec in
        if f_is_zero query_norm
        then Raise (Exc ValueError "Query vector cannot be zero")
        else
          let query_normalized :=
            (λ x, astype_float32 (f_div x query_norm)) <$> query_vec in
          match index_search index query_normalized
                  (k `min` Z.of_nat (length (vacancy_ids g))) with
          | Raise e => Raise e
          | Ok row => Ok (map_positions (vacancy_ids g) row)
          end
  end.

End WithLibraries.
End LoadEmbeddings.

(** ** app/models/match_models.py and the vacancy documents *)

(** A value stored under a key of a document: missing key, [None], or a
    string (the seed script stores every text column as [str] or [None]). *)
Inductive field := Absent | Null | Text (s : string).

(** [d.get(key, dflt)]. *)
Definition get_or (f : field) (dflt : string) : option string :=
  match f with Absent => Some dflt | Null => None | Text s => Some s end.

(** [d.get(key)]. *)
Definition get (f : field) : option string :=
  match f with Text s => Some s | _ => None end.

(** How an f-string renders [d.get(key, "")]. *)
Definition render (v : option string) : string := default "None" v.

Record vacancy := Vacancy {
  idx : option Z;
  title : field;
  description : field;
  key_skills : field;
  company : field;
  location : field;
  salary : field;
  experience : field;
  job_type : field;
  hh_url : field;
}.

Record MatchedVacancy := mkMatchedVacancy {
  mv_idx : Z;
  mv_title : option string;
  mv_company : option string;
  mv_location : option string;
  mv_salary : option string;
  mv_experience : option string;
  mv_job_type : option string;
  mv_description : option string;
  mv_key_skills : option string;
  mv_hh_url : option string;
  mv_seniority_level : option string;
}.

Record MatchVacanciesResponse := mkResponse {
  top_idx : list Z;
  stage1 : list Z;
  result_list : list MatchedVacancy;
}.

Record MatchVacanciesRequest := mkRequest {
  resume : string;
  k_faiss : Z;
  k_stage1 : Z;
  k_stage2 : Z;
}.

(** The [Field(ge=..., le=...)] constraints the request model enforces. *)
Definition valid_request (r : MatchVacanciesRequest) : Prop :=
  1 ≤ k_faiss r ≤ 2000 ∧ 1 ≤ k_stage1 r ≤ 200 ∧ 1 ≤ k_stage2 r ≤ 100.

(** ** app/repos/vacancy_repos.py: the collection in its natural order *)

Record VacanciesRepository := Repo { coll : list vacancy }.

(** The query [{"idx": {"$in": idx_list}}] on one document. *)
Definition idx_in (idx_list : list Z) (d : vacancy) : bool :=
  match idx d with
  | Some i => bool_decide (i ∈ idx_list)
  | None => false
  end.

(** The documents the awaited query delivers when it returns; a query that
    raises is a [Failing] store below. *)
Definition find_by_ids (repo : VacanciesRepository) (idx_list : list Z)
  : list vacancy :=
  filter (λ d, idx_in idx_list d = true) (coll repo).

(** [find({}).limit(n)]. *)
Definition find_all (repo : VacanciesRepository) (limit : nat) : list vacancy :=
  take limit (coll repo).

(** The prompt constants of [app/prompts.py]. *)
Class Prompts := {
  MATCH_PREPROCESS_SYSTEM_PROMPT : string;
  MATCH_SYSTEM_PROMPT_STAGE1 : string;
  MATCH_SYSTEM_PROMPT_STAGE2 : string;
}.

(** ** app/services/yandex_sdk.py *)

Section Services.
Context `{NP : Numpy} (w : world).

(** One call of the completion model; [structured] tells whether a
    response schema was configured. *)
Definition sdk_run (structured : bool) (messages : list message) : M string :=
  λ n, (S n,
        match sdk_completions w n structured messages with
        | SdkRaises msg => Raise (Exc RuntimeError ("YandexGPT API error: " +:+ msg))
        | SdkNoResult => Ok ""
        | SdkText s => Ok s
        end).

Definition run_structured_completion (messages : list message) : M string :=
  sdk_run true messages.

Definition run_text_completion (messages : list message) : M string :=
  sdk_run false messages.

Definition embed_text (text : string) : M (list F) :=
  λ n, (S n,
        match sdk_embeddings w n text with
        | inl msg => Raise (Exc RuntimeError
                              ("YandexGPT Embeddings API error: " +:+ msg))
        | inr vec => Ok (astype_float32 <$> vec)
        end).

End Services.

(** ** app/services/match_service.py *)

Module MatchService.
Section WithEnvironment.
Context `{SO : StrOps} `{JL : JsonLib} `{PR : Prompts} `{FA : Faiss}.
Context (w : world) (g : LoadEmbeddings.globals).

Definition nl : string := String (Ascii.ascii_of_nat 10) "".

Definition rewrap {A} (prefix : string) (m : M A) : M A :=
  try_except m (λ e,
    if is_RuntimeError e
    then raise (Exc RuntimeError (prefix +:+ exc_msg e))
    else raise e).

Definition preprocess_resume (resume : string) : M string :=
  let messages :=
    [Message "system" MATCH_PREPROCESS_SYSTEM_PROMPT; Message "user" resume] in
  try_except
    (result ← str_strip <$> run_text_completion w messages;
     mret (if truthy result then result else resume))
    (λ e, if is_RuntimeError e
          then raise (Exc RuntimeError ("YandexGPT API error: " +:+ exc_msg e))
          else mret resume).

Definition embed_query (text : string) : M (list F) :=
  rewrap "YandexGPT Embeddings API error: " (embed_text w text).

(** [{int(d["idx"]): d for d in docs if "idx" in d}]: a later document
    replaces an earlier one with the same idx. *)
Definition by_idx_of (docs : list vacancy) : gmap Z vacancy :=
  foldl (λ m d, match idx d with Some i => <[i:=d]> m | None => m end) ∅ docs.

Definition fetch_vacancies_in_order (repo : VacanciesRepository)
    (top_idx : list Z) : list vacancy :=
  let docs := find_by_ids repo top_idx in
  let by_idx := by_idx_of docs in
  let ordered :=
    (λ i, by_idx !! i) <$> filter (λ i, is_Some (by_idx !! i)) top_idx in
  omap id ordered.

(** [[int(x) for x in data.get("selected", []) if isinstance(x, int)]];
    [None] when [data] has no [get] or the value cannot be iterated. *)
Definition selected_of (data : json) : option (list Z) :=
  match data with
  | JObject members =>
      match dict_get "selected" members with
      | None => Some []
      | Some (JArray items) => Some (omap as_int items)
      | Some (JString _) | Some (JObject _) => Some []
      | Some _ => None
      end
  | _ => None
  end.

Definition stage1_select (system_prompt context_text : string) (limit : Z)
  : M (list Z) :=
  outcome ←
    try_except
      (prompt ← lift (match str_format system_prompt limit with
                      | Some p => Ok p
                      | None => Raise (Exc KeyError "format")
                      end);
       raw ← run_structured_completion w
               [Message "system" prompt; Message "user" context_text];
       if negb (truthy raw) then mret None
       else
         data ← lift (match json_loads raw with
                      | Some d => Ok d
                      | None => Raise (json_error raw)
                      end);
         selected ← lift (match selected_of data with
                          | Some l => Ok l
                          | None => Raise (Exc TypeError "selected")
                          end);
         mret (Some selected))
      (λ e, if is_RuntimeError e
            then raise (Exc RuntimeError ("YandexGPT API error: " +:+ exc_msg e))
            else mret None);
  match outcome with
  | None => mret []
  | Some selected => mret (slice_to selected limit)
  end.

Definition stage2_select (system_prompt detail_text : string) (limit : Z)
  : M (list Z) :=
  stage1_select system_prompt detail_text limit.

Definition part (label : string) (f : field) : list string :=
  match get f with
  | Some s => if truthy s then [label +:+ s] else []
  | None => []
  end.

Definition mk_vacancy_block (vacancy : vacancy) : string :=
  let parts :=
    ((match idx vacancy with
     | Some i => if decide (i = 0) then [] else ["idx: " +:+ pretty i]
     | None => []
     end : list string)
    ++ part "Название: " (title vacancy)
    ++ part "Описание: " (description vacancy)
    ++ part "Навыки: " (key_skills vacancy)
    ++ part "Компания: " (company vacancy)
    ++ part "Локация: " (location vacancy)
    ++ part "Зарплата: " (salary vacancy)
    ++ part "Опыт: " (experience vacancy))%list in
  join nl parts.

(** [any(word in text for word in words)]. *)
Definition any_in (words : list string) (text : string) : bool :=
  existsb (λ word, contains word text) words.

Definition intern_words : list string :=
  ["стажер"; "intern"; "trainee"; "без опыта"; "обучение"].
Definition head_words : list string :=
  ["руководитель"; "директор"; "head"; "director"; "chief"; "cfo"; "ceo";
   "cdo"; "lead"].
Definition expert_words : list string :=
  ["эксперт"; "expert"; "principal"; "staff"].
Definition advanced_words : list string :=
  ["senior"; "старший"; "ведущий"; "опыт от 3"; "опыт от 5"].
Definition mid_words : list string :=
  ["middle"; "средний"; "опыт от 1"; "опыт от 2"].
Definition entry_words : list string :=
  ["junior"; "младший"; "начальный"; "entry"].

Definition valid_levels : list string :=
  ["Стажер"; "Начальный"; "Средний"; "Продвинутый"; "Эксперт"; "Руководитель"].

(** The text the keywords are looked up in. *)
Definition seniority_text (vacancy : vacancy) : string :=
  let title := str_lower (or_empty (get_or (title vacancy) "")) in
  let description := str_lower (or_empty (get_or (description vacancy) "")) in
  let experience := str_lower (or_empty (get_or (experience vacancy) "")) in
  let key_skills := str_lower (or_empty (get_or (key_skills vacancy) "")) in
  title +:+ " " +:+ description +:+ " " +:+ experience +:+ " " +:+ key_skills.

Definition seniority_prompt (vacancy : vacancy) : string :=
  let description := str_lower (or_empty (get_or (description vacancy) "")) in
  nl +:+ "Определи уровень позиции по следующей вакансии:" +:+ nl +:+ nl
  +:+ "Название: " +:+ render (get_or (title vacancy) "") +:+ nl
  +:+ "Опыт: " +:+ render (get_or (experience vacancy) "") +:+ nl
  +:+ "Описание (первые 200 символов): " +:+ str_take 200 description +:+ nl +:+ nl
  +:+ "Выбери ОДИН из уровней:" +:+ nl
  +:+ "- Стажер (для позиций без опыта, с обучением)" +:+ nl
  +:+ "- Начальный (junior, младший, для кандидатов с минимальным опытом до 1-2 лет)" +:+ nl
  +:+ "- Средний (middle, для кандидатов с опытом 1-3 года)" +:+ nl
  +:+ "- Продвинутый (senior, старший, для кандидатов с опытом 3+ лет)" +:+ nl
  +:+ "- Эксперт (expert, principal, для высококвалифицированных специалистов)" +:+ nl
  +:+ "- Руководитель (руководящие позиции: директор, руководитель, head, chief)" +:+ nl +:+ nl
  +:+ "Верни ТОЛЬКО название уровня без дополнительных комментариев." +:+ nl.

Definition determine_seniority_level (vacancy : vacancy) : M string :=
  let text := seniority_text vacancy in
  if any_in intern_words text then mret "Стажер"
  else if any_in head_words text then mret "Руководитель"
  else if any_in expert_words text then mret "Эксперт"
  else if any_in advanced_words text then mret "Продвинутый"
  else if any_in mid_words text then mret "Средний"
  else if any_in entry_words text then mret "Начальный"
  else
    try_except
      (result ← str_strip <$>
                  run_text_completion w [Message "system" (seniority_prompt vacancy)];
       mret (default "Средний"
               (List.find (λ level, contains (str_lower level) (str_lower result))
                          valid_levels)))
      (λ _, mret "Средний").

(** [d["idx"]]. *)
Definition require_idx (d : vacancy) : result Z :=
  match idx d with
  | Some i => Ok i
  | None => Raise (Exc KeyError "idx")
  end.

(** [[d for d in candidates if int(d["idx"]) in selected]]. *)
Fixpoint keep_selected (selected : gset Z) (candidates : list vacancy)
  : result (list vacancy) :=
  match candidates with
  | [] => Ok []
  | d :: rest =>
      i ← require_idx d;
      kept ← keep_selected selected rest;
      Ok (if decide (i ∈ selected) then d :: kept else kept)
  end.

(** The expression that ends a stage:
    [[d for d in candidates if int(d["idx"]) in selected][:k] or candidates[:k]]. *)
Definition narrow (selected : gset Z) (candidates : list vacancy) (k : Z)
  : result (list vacancy) :=
  kept ← keep_selected selected candidates;
  Ok (or_list (slice_to kept k) (slice_to candidates k)).

(** The values bound in a run that reaches the end of [match_vacancies]. *)
Record locals := Locals {
  l_top_idx_list : list Z;
  l_ordered : list vacancy;
  l_stage1_selected : gset Z;
  l_stage2 : list vacancy;
  l_stage2_selected : gset Z;
  l_final : list vacancy;
}.

Definition to_matched (d : vacancy) : M MatchedVacancy :=
  seniority_level ← determine_seniority_level d;
  i ← lift (require_idx d);
  mret (mkMatchedVacancy i
          (get_or (title d) "") (get_or (company d) "")
          (get_or (location d) "") (get_or (salary d) "")
          (get_or (experience d) "") (get_or (job_type d) "")
          (get_or (description d) "") (get_or (key_skills d) "")
          (match get_or (hh_url d) "" with
           | Some s => if truthy s then Some s
                       else Some ("https://hh.ru/vacancy/" +:+ pretty i)
           | None => Some ("https://hh.ru/vacancy/" +:+ pretty i)
           end)
          (Some seniority_level)).

Definition faiss_search (q_vec : list F) (k : Z) : M (list Z) :=
  try_except
    (top_idx_list ← lift (LoadEmbeddings.search_top_k g q_vec k);
     match top_idx_list with
     | [] => raise (Exc RuntimeError
               "FAISS вернул пустой список. Проверьте что индекс построен и эмбеддинги загружены.")
     | _ => mret top_idx_list
     end)
    (λ e, if is_RuntimeError e
          then raise (Exc RuntimeError ("FAISS search failed: " +:+ exc_msg e
                 +:+ ". FAISS must always work - check server startup logs."))
          else raise (Exc RuntimeError ("Unexpected FAISS error: " +:+ exc_msg e))).

(** [list(stage1_selected)] lists the members of the set in the
    iteration order of the interpreter's hash table; [elements] lists them
    in an order of its own, and no statement below reads that order. *)
Definition match_vacancies_locals (request : MatchVacanciesRequest)
    (repo : VacanciesRepository)
  : M (MatchVacanciesResponse * option locals) :=
  aug_text ← preprocess_resume (resume request);
  q_vec ← embed_query aug_text;
  top_idx_list ← faiss_search q_vec (k_faiss request);
  let ordered := fetch_vacancies_in_order repo top_idx_list in
  match ordered with
  | [] => mret (mkResponse top_idx_list [] [], None)
  | _ =>
      items ← lift (mapM (λ d, i ← require_idx d;
                               Ok (pretty i +:+ ": " +:+ render (get_or (title d) "")))
                         ordered);
      let list_text := join (nl +:+ "---" +:+ nl) items in
      let context1 :=
        "Резюме финансового специалиста:" +:+ nl +:+ resume request +:+ nl +:+ nl
        +:+ "Список финансовых вакансий (id: название):" +:+ nl +:+ list_text in
      stage1_selected ← list_to_set (C := gset Z) <$>
        stage1_select MATCH_SYSTEM_PROMPT_STAGE1 context1 (k_stage1 request);
      stage2 ← lift (narrow stage1_selected ordered (k_stage1 request));
      let details :=
        join (nl +:+ "------" +:+ nl) (mk_vacancy_block <$> stage2) in
      let context2 :=
        "Резюме финансового специалиста:" +:+ nl +:+ resume request +:+ nl +:+ nl
        +:+ "Вакансии (подробно):" +:+ nl +:+ details in
      stage2_selected ← list_to_set (C := gset Z) <$>
        stage2_select MATCH_SYSTEM_PROMPT_STAGE2 context2 (k_stage2 request);
      final ← lift (narrow stage2_selected stage2 (k_stage2 request));
      result ← mapM to_matched final;
      mret (mkResponse (slice_to top_idx_list (k_faiss request))
              (elements stage1_selected) result,
            Some (Locals top_idx_list ordered stage1_selected stage2
                    stage2_selected final))
  end.

Definition match_vacancies (request : MatchVacanciesRequest)
    (repo : VacanciesRepository) : M MatchVacanciesResponse :=
  fst <$> match_vacancies_locals request repo.

End WithEnvironment.
End MatchService.

(** ** Reference instances of the external libraries, used to run the
    definitions on concrete inputs *)

Module Reference.

Import Stdlib.Strings.Ascii.

(** *** Strings: ASCII and Cyrillic letters, ASCII white space *)

Definition byte_of (c : ascii) : nat := nat_of_ascii c.
Definition chr (n : nat) : ascii := ascii_of_nat n.

(** Two-byte UTF-8 sequences [D0 xx] hold the capital Cyrillic letters. *)
Fixpoint lower (s : string) : string :=
  match s with
  | EmptyString => EmptyString
  | String c rest =>
      let b := byte_of c in
      if decide (65 ≤ b ≤ 90)%nat then String (chr (b + 32)) (lower rest)
      else if decide (b = 208)%nat then
        match rest with
        | String c2 rest2 =>
            let b2 := byte_of c2 in
            if decide (128 ≤ b2 ≤ 143)%nat
            then String (chr 209) (String (chr (b2 + 16)) (lower rest2))
            else if decide (144 ≤ b2 ≤ 159)%nat
            then String (chr 208) (String (chr (b2 + 32)) (lower rest2))
            else if decide (160 ≤ b2 ≤ 175)%nat
            then String (chr 209) (String (chr (b2 - 32)) (lower rest2))
            else String c (String c2 (lower rest2))
        | EmptyString => String c EmptyString
        end
      else String c (lower rest)
  end.

Definition is_space (c : ascii) : bool :=
  let b := byte_of c in
  bool_decide (b = 32 ∨ 9 ≤ b ≤ 13 ∨ 28 ≤ b ≤ 31)%nat.

Fixpoint lstrip (s : string) : string :=
  match s with
  | String c rest => if is_space c then lstrip rest else s
  | EmptyString => EmptyString
  end.

Fixpoint rstrip (s : string) : string :=
  match s with
  | EmptyString => EmptyString
  | String c rest =>
      match rstrip rest with
      | EmptyString => if is_space c then EmptyString else String c EmptyString
      | r => String c r
      end
  end.

Definition strip (s : string) : string := rstrip (lstrip s).

Definition strip_prefix (p s : string) : option string :=
  if String.prefix p s
  then Some (String.substring (String.length p) (String.length s) s)
  else None.

(** [template.format(limit=n)] for templates whose only field is [limit]. *)
Fixpoint format_limit (fuel : nat) (template : string) (n : Z) : option string :=
  match fuel with
  | O => None
  | S fuel =>
      match template with
      | EmptyString => Some EmptyString
      | String c rest =>
          match strip_prefix "{limit}" template with
          | Some r => (λ t, pretty n +:+ t) <$> format_limit fuel r n
          | None =>
              match strip_prefix "{{" template, strip_prefix "}}" template with
              | Some r, _ | _, Some r => String c <$> format_limit fuel r n
              | None, None =>
                  if bool_decide (c = "{"%char ∨ c = "}"%char) then None
                  else String c <$> format_limit fuel rest n
              end
          end
      end
  end.

(** [s[:n]] on UTF-8: continuation bytes [10xxxxxx] do not count. *)
Fixpoint take_chars (n : nat) (s : string) : string :=
  match s with
  | EmptyString => EmptyString
  | String c rest =>
      if decide (128 ≤ byte_of c ≤ 191)%nat then String c (take_chars n rest)
      else match n with
           | O => EmptyString
           | S n' => String c (take_chars n' rest)
           end
  end.

Global Instance str_ops : StrOps := {|
  str_lower := lower;
  str_strip := strip;
  str_format t n := format_limit (S (String.length t)) t n;
  str_take n s := match n with O => EmptyString | _ => take_chars n s end;
|}.

(** *** JSON: objects, arrays, integers, strings without escapes *)

Fixpoint skip_ws (s : string) : string :=
  match s with
  | String c rest => if is_space c then skip_ws rest else s
  | EmptyString => EmptyString
  end.

Definition is_digit (c : ascii) : bool :=
  bool_decide (48 ≤ byte_of c ≤ 57)%nat.

Fixpoint span (p : ascii → bool) (s : string) : string * string :=
  match s with
  | String c rest =>
      if p c then let '(a, b) := span p rest in (String c a, b)
      else (EmptyString, s)
  | EmptyString => (EmptyString, EmptyString)
  end.

Definition digits_value (ds : string) : Z :=
  foldl (λ acc c, 10 * acc + Z.of_nat (byte_of c - 48)) 0
        (String.list_ascii_of_string ds).

Definition parse_number (s : string) : option (json * string) :=
  let '(neg, s1) := match s with
                    | String "-"%char r => (true, r)
                    | _ => (false, s)
                    end in
  let '(ds, rest) := span is_digit s1 in
  match ds, rest with
  | EmptyString, _ => None
  | _, String "."%char _ | _, String "e"%char _ | _, String "E"%char _ =>
      let '(tok, rest') :=
        span (λ c, is_digit c || bool_decide (c ∈ [".";"e";"E";"+";"-"]%char)) s in
      Some (JFloat tok, rest')
  | _, _ => Some (JInt (if neg : bool then - digits_value ds else digits_value ds), rest)
  end.

Definition dquote : ascii := chr 34.

Definition parse_string (s : string) : option (string * string) :=
  match s with
  | String c r =>
      if decide (c = dquote) then
        let '(body, rest) :=
          span (λ c, negb (bool_decide (c = dquote ∨ c = "\"%char))) r in
        match rest with
        | String c' rest' => if decide (c' = dquote) then Some (body, rest') else None
        | EmptyString => None
        end
      else None
  | EmptyString => None
  end.

(** What the scanner makes of a text: a value and the rest of the text,
    a syntax error, or a nesting deeper than it may recurse (in an array
    or in an object). *)
Inductive scan (A : Type) :=
| Scanned (a : A)
| Rejected
| TooDeep (what : string).
Arguments Scanned {A} a.
Arguments Rejected {A}.
Arguments TooDeep {A} what.

Definition scan_bind {A B} (m : scan A) (f : A → scan B) : scan B :=
  match m with
  | Scanned a => f a
  | Rejected => Rejected
  | TooDeep what => TooDeep what
  end.

Definition scan_of {A} (o : option A) : scan A :=
  match o with Some a => Scanned a | None => Rejected end.

(** [depth] is the number of arrays and objects the scanner may still
    enter; [fuel] bounds the number of calls, two for a character at
    most. *)
Fixpoint parse_value (fuel depth : nat) (s : string) : scan (json * string) :=
  match fuel with
  | O => Rejected
  | S fuel =>
      let s := skip_ws s in
      match s with
      | String "["%char r =>
          match depth with
          | O => TooDeep "array"
          | S depth =>
              match skip_ws r with
              | String "]"%char r' => Scanned (JArray [], r')
              | _ => scan_bind (parse_items fuel depth r)
                       (λ '(items, r'), Scanned (JArray items, r'))
              end
          end
      | String "{"%char r =>
          match depth with
          | O => TooDeep "object"
          | S depth =>
              match skip_ws r with
              | String "}"%char r' => Scanned (JObject [], r')
              | _ => scan_bind (parse_members fuel depth r)
                       (λ '(members, r'), Scanned (JObject members, r'))
              end
          end
      | _ =>
          match parse_string s with
          | Some (str, r) => Scanned (JString str, r)
          | None =>
          match strip_prefix "null" s, strip_prefix "true" s, strip_prefix "false" s with
          | Some r, _, _ => Scanned (JNull, r)
          | _, Some r, _ => Scanned (JBool true, r)
          | _, _, Some r => Scanned (JBool false, r)
          | _, _, _ => scan_of (parse_number s)
          end
          end
      end
  end
with parse_items (fuel depth : nat) (s : string) : scan (list json * string) :=
  match fuel with
  | O => Rejected
  | S fuel =>
      scan_bind (parse_value fuel depth s) (λ '(v, r),
      match skip_ws r with
      | String ","%char r' =>
          scan_bind (parse_items fuel depth r') (λ '(vs, r''), Scanned (v :: vs, r''))
      | String "]"%char r' => Scanned ([v], r')
      | _ => Rejected
      end)
  end
with parse_members (fuel depth : nat) (s : string)
  : scan (list (string * json) * string) :=
  match fuel with
  | O => Rejected
  | S fuel =>
      scan_bind (scan_of (parse_string (skip_ws s))) (λ '(k, r),
      match skip_ws r with
      | String ":"%char r1 =>
          scan_bind (parse_value fuel depth r1) (λ '(v, r2),
          match skip_ws r2 with
          | String ","%char r3 =>
              scan_bind (parse_members fuel depth r3)
                (λ '(ms, r4), Scanned ((k, v) :: ms, r4))
          | String "}"%char r3 => Scanned ([(k, v)], r3)
          | _ => Rejected
          end)
      | _ => Rejected
      end)
  end.

(** The recursion limit of the interpreter at its default, and the
    frames that are on the stack when the selector parses an answer: the
    scanner may nest as deep as the difference.  The number of frames
    depends on the server; this instance takes 50. *)
Definition recursion_limit : nat := 1000.
Definition frames_in_use : nat := 50.

Definition scan_text (s : string) : scan json :=
  scan_bind (parse_value (S (2 * String.length s))
               (recursion_limit - frames_in_use) s) (λ '(v, rest),
  match skip_ws rest with
  | EmptyString => Scanned v
  | _ => Rejected
  end).

Definition loads (s : string) : option json :=
  match scan_text s with Scanned v => Some v | _ => None end.

Definition loads_error (s : string) : exc :=
  match scan_text s with
  | TooDeep what =>
      Exc RecursionError
        ("maximum recursion depth exceeded while decoding a JSON " +:+ what
         +:+ " from a unicode string")
  | _ => Exc JSONDecodeError "Expecting value"
  end.

Global Instance json_lib : JsonLib := {|
  json_loads := loads;
  json_error := loads_error;
|}.

Global Instance prompts : Prompts := {|
  MATCH_PREPROCESS_SYSTEM_PROMPT := "preprocess";
  MATCH_SYSTEM_PROMPT_STAGE1 := "pick {limit} by title";
  MATCH_SYSTEM_PROMPT_STAGE2 := "pick {limit} by description";
|}.

(** *** NumPy on binary32 (round to nearest even), sums taken left to
    right *)

Definition f32_zero : spec_float := S754_zero false.
Definition f32_of_Z (z : Z) : spec_float := binary_normalize 24 128 z 0 false.
Definition f32_add := SFadd 24 128.
Definition f32_sub := SFsub 24 128.
Definition f32_mul := SFmul 24 128.
Definition f32_div := SFdiv 24 128.
Definition f32_sqrt := SFsqrt 24 128.

Definition dot (a b : list spec_float) : spec_float :=
  foldl f32_add f32_zero (zip_with f32_mul a b).

Global Instance numpy : Numpy := {|
  F := spec_float;
  linalg_norm v := f32_sqrt (dot v v);
  f_is_zero x := SFeqb x f32_zero;
  f_div := f32_div;
  f_add := f32_add;
  eps := S754_finite false 9223372 (-63);
  astype_float32 x := x;
|}.

(** *** FAISS: exhaustive search by squared L2 distance, nearest first,
    padded with [-1] as the library does *)

Definition distance (q r : list spec_float) : spec_float :=
  let diff := zip_with f32_sub q r in dot diff diff.

Fixpoint insert_nearest (x : spec_float * Z) (l : list (spec_float * Z))
  : list (spec_float * Z) :=
  match l with
  | [] => [x]
  | y :: l' => if SFltb x.1 y.1 then x :: y :: l' else y :: insert_nearest x l'
  end.

Definition nearest (rows : list (list spec_float)) (q : list spec_float)
    (k : Z) : result (list Z) :=
  if decide (k ≤ 0) then Raise (Exc AssertionError "k > 0")
  else if forallb (λ r, bool_decide (length r = length q)) rows then
    let scored := imap (λ i r, (distance q r, Z.of_nat i)) rows in
    let ranked := (foldl (λ acc x, insert_nearest x acc) [] scored).*2 in
    Ok (take (Z.to_nat k) (ranked ++ replicate (Z.to_nat k) (-1)))
  else Raise (Exc AssertionError "d == self.d").

Global Instance faiss : Faiss := {|
  Index := list (list spec_float);
  index_build X :=
    match shape X with
    | [n; d] => Some (LoadEmbeddings.chunks d n (data X))
    | _ => None
    end;
  index_search := nearest;
|}.

End Reference.

(** ** Predicates and sample data used in the statements *)

(** The store holds a document whose idx is [i]. *)
Definition in_store (repo : VacanciesRepository) (i : Z) : bool :=
  existsb (λ d, bool_decide (idx d = Some i)) (coll repo).

(** The model's selection names the document. *)
Definition selected_by (selected : gset Z) (d : vacancy) : bool :=
  match idx d with
  | Some i => bool_decide (i ∈ selected)
  | None => false
  end.

(** A document that carries only an idx and a title. *)
Definition doc (i : Z) (t : string) : vacancy :=
  Vacancy (Some i) (Text t) Null Null Null Null Null Null Null Null.

Definition sample_repo : VacanciesRepository :=
  Repo [doc 12 "Treasury analyst"; doc 10 "Financial controller";
        doc 7 "Risk manager"; doc 11 "Auditor"].


(** The index is built: the library is there, the index reference is set
    and the id list is not empty. *)
Definition index_ready `{Faiss} (g : LoadEmbeddings.globals) : Prop :=
  LoadEmbeddings.FAISS_AVAILABLE g = true
  ∧ is_Some (LoadEmbeddings.faiss_index g)
  ∧ LoadEmbeddings.vacancy_ids g ≠ [].

(** [needle] occurs in [text]: the text is some text, then the needle,
    then some text. *)
Definition occurs (needle text : string) : Prop :=
  ∃ before after, text = before +:+ needle +:+ after.

(** A word of [words] occurs in [text]. *)
Definition has_keyword (words : list string) (text : string) : Prop :=
  ∃ word, word ∈ words ∧ occurs word text.

(** The text of a field of a candidate: empty when the document has no
    such key or holds [None] under it. *)
Definition field_text (f : field) : string :=
  match f with Text s => s | Absent | Null => "" end.

(** The combined text of a candidate: title, description, experience and
    skills, each in lower case, with single spaces between them. *)
Definition combined_text `{StrOps} (v : vacancy) : string :=
  String.concat " "
    (str_lower <$> [field_text (title v); field_text (description v);
                    field_text (experience v); field_text (key_skills v)]).

(** No keyword set of the classifier matches the text. *)
Definition no_keyword (text : string) : bool :=
  forallb (λ words, negb (MatchService.any_in words text))
    [MatchService.intern_words; MatchService.head_words;
     MatchService.expert_words; MatchService.advanced_words;
     MatchService.mid_words; MatchService.entry_words].

(** The answer of the model names none of the six labels. *)
Definition names_no_level `{StrOps} (answer : string) : bool :=
  forallb (λ level, negb (contains (str_lower level) (str_lower (str_strip answer))))
    MatchService.valid_levels.

(** The text [run_text_completion] returns for an outcome of the SDK. *)
Definition answer_of (o : sdk_outcome) : option string :=
  match o with
  | SdkRaises _ => None
  | SdkNoResult => Some ""
  | SdkText s => Some s
  end.

(** The rows of a loaded vector batch once a 1-D array is read as one row
    ([None] for a 0-d array), and the ids that go with it before truncation:
    the id file flattened, or [0 .. len - 1] when there is no id file. *)
Definition batch_rows `{Numpy} (e : ndarray F) : option nat :=
  if decide (ndim e = 1%nat) then Some 1%nat else len e.

Definition batch_ids `{Faiss} (f : LoadEmbeddings.batch_file) (e : ndarray F)
  : option (list Z) :=
  match LoadEmbeddings.indices f with
  | LoadEmbeddings.IndicesLoaded a =>
      Some (if decide (ndim a = 0%nat) then take 1 (data a) else data a)
  | LoadEmbeddings.IndicesAbsent => (λ n, Z.of_nat <$> seq 0 n) <$> len e
  | LoadEmbeddings.IndicesUnreadable => None
  end.

(** A request served end to end on the reference libraries: nine vectors in
    three shards, four documents in the store, and a completion model that
    answers the first narrowing prompt with the ids 10 and 99. *)
Module Sample.
Import Reference LoadEmbeddings.

Definition quote : string := String dquote "".

(** The JSON text of a selection. *)
Definition selection (ids : string) : string :=
  "{" +:+ quote +:+ "selected" +:+ quote +:+ ":[" +:+ ids +:+ "]}".

Definition vec (l : list Z) : list spec_float := f32_of_Z <$> l.

Definition shard (n : Z) (rows : list (list Z)) (ids : list Z) : batch_file :=
  BatchFile (Some n)
    (Some (NdArray [length rows; 3%nat] (concat (vec <$> rows))))
    (IndicesLoaded (NdArray [length ids] ids)).

Definition dir : list batch_file :=
  [shard 2 [[0; 0; 1]; [-1; 0; 0]; [0; 2; 1]] [5; 6; 8];
   shard 0 [[2; 0; 1]; [0; 1; 0]; [1; 1; 1]] [10; 7; 9];
   shard 1 [[3; 0; 1]; [1; 0; 1]; [0; 3; 1]] [11; 12; 4]].

(** A batch with three vectors and two ids, a batch without id file, and
    a batch that holds a single 1-D vector. *)
Definition ragged_dir : list batch_file :=
  [BatchFile (Some 1)
     (Some (NdArray [3%nat; 2%nat] (vec [1; 0; 0; 1; 1; 1])))
     (IndicesLoaded (NdArray [2%nat] [41; 42]));
   BatchFile (Some 0)
     (Some (NdArray [2%nat; 2%nat] (vec [2; 0; 0; 2])))
     IndicesAbsent;
   BatchFile (Some 2)
     (Some (NdArray [2%nat] (vec [5; 5])))
     (IndicesLoaded (NdArray [3%nat] [7; 8; 9]))].

Definition globals0 : globals := build_faiss (Some dir) (Globals true None []).

Definition world0 : world := {|
  sdk_completions n structured messages :=
    match n with
    | 0%nat => SdkText "financial analyst, treasury, reporting"
    | 2%nat => SdkText (selection "10,99")
    | 3%nat => SdkText (selection "10,11,12,7")
    | _ => SdkText "Средний"
    end;
  sdk_embeddings n text := inr (vec [2; 0; 1]);
|}.

Definition request0 : MatchVacanciesRequest :=
  mkRequest "Financial analyst" 3 2 2.

Definition candidates0 : list vacancy :=
  [doc 10 "Financial controller"; doc 11 "Auditor"; doc 12 "Treasury analyst"].

End Sample.

(** ** app/main.py: what the readiness endpoints report *)

Module Main.
Import LoadEmbeddings.

Record index_stats := IndexStats {
  index_built : bool;
  vacancies_count : nat;
  embeddings_dir : string;
  faiss_available : bool;
}.

(** [get_index_stats] of load_embeddings.py; [VAC_EMBED_DIR] is the
    path found at import time. *)
Definition get_index_stats `{Faiss} (VAC_EMBED_DIR : string) (g : globals)
  : index_stats :=
  IndexStats (bool_decide (is_Some (faiss_index g)))
             (length (vacancy_ids g)) VAC_EMBED_DIR (FAISS_AVAILABLE g).

Record ready_report := ReadyReport {
  is_ready : bool;
  faiss_built : bool;
  ready_vacancies_count : nat;
}.

(** The body of [GET /ready], without the time stamp. *)
Definition ready `{Faiss} (g : globals) : ready_report :=
  ReadyReport
    (bool_decide (is_Some (faiss_index g))
     && bool_decide (0 < length (vacancy_ids g))%nat)
    (bool_decide (is_Some (faiss_index g)))
    (length (vacancy_ids g)).

End Main.

(** ** app/db/mongo.py: documents as dictionaries *)

Module Mongo.
Section WithValues.
Context {V : Type}.

Definition sanitize_mongo_doc (doc : option (gmap string V))
  : option (gmap string V) :=
  match doc with
  | None => None
  | Some doc =>
      if decide (is_Some (doc !! "_id"))
      then Some (filter (λ kv, kv.1 ≠ "_id") doc)
      else Some doc
  end.

(** [sanitize_mongo_doc(d) or {}]: [None] and the empty dictionary are
    falsy. *)
Definition sanitize_many (docs : list (gmap string V)) : list (gmap string V) :=
  (λ d, match sanitize_mongo_doc (Some d) with
        | Some d' => if decide (d' = ∅) then ∅ else d'
        | None => ∅
        end) <$> docs.

End WithValues.
End Mongo.

(** ** app/routers/match.py: the endpoint [POST /vacancies] *)

Module Router.
Section WithEnvironment.
Context `{SO : StrOps} `{JL : JsonLib} `{PR : Prompts} `{FA : Faiss}.
Context (w : world) (g : LoadEmbeddings.globals).

Record HTTPException := mkHTTPException { status_code : Z; detail : string }.

(** The test that tells a credentials failure from any other. *)
Definition is_key_error (error_msg : string) : bool :=
  contains "API key" error_msg
  || contains "UNAUTHENTICATED" error_msg
  || contains "api key" (str_lower error_msg).

(** The handler around the awaited service call. *)
Definition respond (service : M MatchVacanciesResponse)
  : nat → nat * (HTTPException + MatchVacanciesResponse) := λ n,
  match service n with
  | (n', Ok response) => (n', inr response)
  | (n', Raise e) =>
      (n', inl
        (if is_RuntimeError e then
           let error_msg := exc_msg e in
           if is_key_error error_msg
           then mkHTTPException 401
                  ("YandexGPT API key error: " +:+ error_msg
                   +:+ ". Please check YANDEX_API_KEY in Cloud Run environment variables.")
           else mkHTTPException 500 ("YandexGPT API error: " +:+ error_msg)
         else mkHTTPException 500 ("Failed to match vacancies: " +:+ exc_msg e)))
  end.

Definition match_vacancies (request : MatchVacanciesRequest)
    (repo : VacanciesRepository)
  : nat → nat * (HTTPException + MatchVacanciesResponse) :=
  respond (MatchService.match_vacancies w g request repo).

End WithEnvironment.
End Router.

(** ** The store as the service reaches it

    [find_by_ids] gives the documents the Motor query delivers when it
    returns.  The awaited query can also raise (a [PyMongoError] when the
    server cannot be reached, a timeout); [match_vacancies] awaits
    [fetch_vacancies_in_order] outside every [try], after the vector search,
    so the exception leaves the service as it is.  The [find_all] of the
    diagnostic branch sits in a [try] that swallows every exception, so its
    failure changes nothing. *)
Inductive store :=
| Serving (repo : VacanciesRepository)
| Failing (e : exc).

Module Awaited.
Section WithEnvironment.
Context `{SO : StrOps} `{JL : JsonLib} `{PR : Prompts} `{FA : Faiss}.
Context (w : world) (g : LoadEmbeddings.globals).

Definition match_vacancies (request : MatchVacanciesRequest) (s : store)
  : M MatchVacanciesResponse :=
  match s with
  | Serving repo => MatchService.match_vacancies w g request repo
  | Failing e =>
      aug_text ← MatchService.preprocess_resume w (resume request);
      q_vec ← MatchService.embed_query w aug_text;
      top_idx_list ← MatchService.faiss_search g q_vec (k_faiss request);
      raise e
  end.

(** The endpoint [POST /vacancies] on such a store. *)
Definition endpoint (request : MatchVacanciesRequest) (s : store)
  : nat → nat * (Router.HTTPException + MatchVacanciesResponse) :=
  Router.respond (match_vacancies request s).

End WithEnvironment.
End Awaited.

(** ** app/services/career_development_service.py: vacancies on the way
    to a target position *)

Module CareerDevelopment.
Section WithEnvironment.
Context `{SO : StrOps} `{JL : JsonLib} `{PR : Prompts} `{FA : Faiss}.
Context (w : world) (g : LoadEmbeddings.globals).

Definition nl : string := MatchService.nl.
Definition quote : string := String (Ascii.ascii_of_nat 34) "".



End WithEnvironment.
End CareerDevelopment.

(** ** app/utils/retry.py: the synchronous wrapper of [retry_with_backoff] *)

Module Retry.

(** Delays are floats; their product and minimum are the language's, and
    [d_sleepable d] tells whether [time.sleep(d)] accepts [d] (it raises
    on a negative number, a NaN and an infinity). *)
Class Delays := {
  D : Type;
  d_mul : D → D → D;
  d_min : D → D → D;
  d_sleepable : D → bool;
}.

Section WithDelays.
Context `{DL : Delays} {T : Type}.

(** How a run of the wrapper ends: with the value of a call, with the
    exception of a call, with the exception [time.sleep] raises on a delay
    it rejects, or by leaving the loop without a call having returned
    ([None] in Python). *)
Inductive ending :=
| Returned (v : T)
| Raised (e : exc)
| SleepRaised (d : D)
| FellThrough.

Record run := Run {
  ended : ending;
  calls : nat;
  sleeps : list D;
}.

(** [func k] is what the [k]-th call of the wrapped function does;
    [exceptions e] tells whether [e] is an instance of the configured
    exception classes.  The loop runs [attempt] over
    [range(max_retries + 1)]; [left] counts the iterations that remain. *)
Fixpoint loop (func : nat → result T) (exceptions : exc → bool)
    (max_retries : Z) (exponential_base max_delay : D)
    (left : nat) (attempt : nat) (delay : D) : run :=
  match left with
  | O => Run FellThrough 0 []
  | S left' =>
      match func attempt with
      | Ok v => Run (Returned v) 1 []
      | Raise e =>
          if exceptions e then
            if decide (Z.of_nat attempt < max_retries) then
              if d_sleepable delay then
                let r := loop func exceptions max_retries exponential_base
                           max_delay left' (S attempt)
                           (d_min (d_mul delay exponential_base) max_delay) in
                Run (ended r) (S (calls r)) (delay :: sleeps r)
              else Run (SleepRaised delay) 1 []
            else Run (Raised e) 1 []
          else Run (Raised e) 1 []
      end
  end.

Definition sync_wrapper (func : nat → result T) (exceptions : exc → bool)
    (max_retries : Z) (initial_delay max_delay exponential_base : D) : run :=
  loop func exceptions max_retries exponential_base max_delay
       (Z.to_nat (max_retries + 1)) 0 initial_delay.

(** The delay slept after the failure of attempt [k]. *)
Fixpoint schedule (initial_delay max_delay exponential_base : D) (k : nat) : D :=
  match k with
  | O => initial_delay
  | S k' => d_min (d_mul (schedule initial_delay max_delay exponential_base k')
                         exponential_base) max_delay
  end.

End WithDelays.
End Retry.

(** ** Predicates for the added statements *)

(** A computation makes at most [c] calls to external services, returns
    only values that satisfy [P], and raises nothing but [RuntimeError]. *)
Definition within {A} (m : M A) (c : nat) (P : A → Prop) : Prop :=
  ∀ n n' r, m n = (n', r) →
    (n ≤ n' ≤ n + c)%nat
    ∧ match r with
      | Ok a => P a
      | Raise e => exc_cls e = RuntimeError
      end.

(** The arrays share everything but the number of rows. *)
Definition same_trailing_shape {A} (arrays : list (ndarray A)) : Prop :=
  ∀ a b, a ∈ arrays → b ∈ arrays → tail (shape a) = tail (shape b).

(** The batch files have pairwise different numbers. *)
Definition distinct_batch_numbers `{Faiss} (files : list LoadEmbeddings.batch_file)
  : Prop :=
  NoDup (LoadEmbeddings.batch_num <$> files).

(** An attempt of a retried function fails with an exception the wrapper
    retries on. *)
Definition retryable {T} (exceptions : exc → bool) (r : result T) : Prop :=
  match r with
  | Ok _ => False
  | Raise e => exceptions e = true
  end.

(** How the wrapper ends when a call is its last. *)
Definition ending_of `{Retry.Delays} {T} (r : result T) : Retry.ending (T := T) :=
  match r with
  | Ok v => Retry.Returned v
  | Raise e => Retry.Raised e
  end.

(** More scenarios on the reference libraries. *)
Module Scenarios.
Import Reference LoadEmbeddings.

(** A store that holds two documents with the idx 10. *)
Definition repo_with_duplicate : VacanciesRepository :=
  Repo [doc 10 "Financial controller"; doc 11 "Auditor";
        doc 10 "Chief accountant"].

Definition empty_repo : VacanciesRepository := Repo [].

(** A model whose credentials are rejected. *)
Definition world_unauthenticated : world := {|
  sdk_completions n structured messages := SdkRaises "UNAUTHENTICATED: Unknown api key";
  sdk_embeddings n text := inl "UNAUTHENTICATED";
|}.

(** A model that answers one narrowing prompt with a list of mixed
    items. *)
Definition world_mixed : world := {|
  sdk_completions n structured messages :=
    SdkText (Sample.selection
               ("10, " +:+ Sample.quote +:+ "11" +:+ Sample.quote
                +:+ ", 12.5, true, null, 13"));
  sdk_embeddings n text := inr (Sample.vec [2; 0; 1]);
|}.

(** A model that names two levels in its answer. *)
Definition world_two_levels : world := {|
  sdk_completions n structured messages :=
    SdkText "Руководитель или Средний";
  sdk_embeddings n text := inr (Sample.vec [2; 0; 1]);
|}.

(** A candidate whose title names a director and whose experience
    field asks for no experience. *)
Definition assistant : vacancy :=
  Vacancy (Some 3) (Text "Помощник финансового директора") Null
    (Text "Excel") Null Null Null (Text "Без опыта") Null Null.

(** A model whose answer opens as many arrays as the recursion limit
    counts. *)
Definition nested_answer : string :=
  String.concat "" (repeat "[" recursion_limit).

Definition world_nested : world := {|
  sdk_completions n structured messages := SdkText nested_answer;
  sdk_embeddings n text := inr (Sample.vec [2; 0; 1]);
|}.

(** A model that pads its answers with white space. *)
Definition world_padded : world := {|
  sdk_completions n structured messages := SdkText "  treasury, IFRS reporting ";
  sdk_embeddings n text := inr (Sample.vec [2; 0; 1]);
|}.

(** Delays as binary64 floats; [min(a, b)] is [b] when [b < a] and [a]
    otherwise, and [time.sleep] accepts a delay that is not negative and
    whose count of nanoseconds is below [2^63]. *)
Global Instance float_delays : Retry.Delays := {|
  Retry.D := spec_float;
  Retry.d_mul := SFmul 53 1024;
  Retry.d_min a b := if SFltb b a then b else a;
  Retry.d_sleepable d :=
    negb (SFltb d (S754_zero false))
    && SFltb (SFmul 53 1024 d (binary_normalize 53 1024 1000000000 0 false))
             (binary_normalize 53 1024 1 63 false);
|}.

Definition seconds (z : Z) : spec_float := binary_normalize 53 1024 z 0 false.

(** A function that times out twice and then answers. *)
Definition flaky (k : nat) : result Z :=
  if (k <? 2)%nat then Raise (Exc RuntimeError "timed out") else Ok 42.

(** A function that never answers. *)
Definition broken (k : nat) : result Z := Raise (Exc RuntimeError "timed out").

End Scenarios.
(** * Properties *)

(** ** Candidate fetcher *)

Section Fetcher.
Import MatchService.

Lemma foldl_by_idx_lookup (docs : list vacancy) (m : gmap Z vacancy) i d :
  foldl (λ m d, match idx d with Some i => <[i:=d]> m | None => m end) m docs !! i
    = Some d →
  m !! i = Some d ∨ (d ∈ docs ∧ idx d = Some i).
Proof.
  revert m. induction docs as [|x docs IH]; intros m Hl; simpl in *.
  - by left.
  - apply IH in Hl as [Hl | [Hin Hi]].
    + destruct (idx x) as [j|] eqn:Hx; [|by left].
      destruct (decide (j = i)) as [->|Hne].
      * rewrite lookup_insert_eq in Hl. injection Hl as <-.
        right. split; [left | done].
      * rewrite lookup_insert_ne in Hl by done. by left.
    + right. split; [by right | done].
Qed.

Lemma foldl_by_idx_is_Some (docs : list vacancy) (m : gmap Z vacancy) i :
  is_Some (foldl (λ m d, match idx d with Some i => <[i:=d]> m | None => m end)
             m docs !! i)
  ↔ is_Some (m !! i) ∨ ∃ d, d ∈ docs ∧ idx d = Some i.
Proof.
  revert m. induction docs as [|x docs IH]; intros m; simpl.
  - split; [by left | intros [H | (d & Hd & _)]; [done | by inversion Hd]].
  - rewrite IH. split.
    + intros [Hm | (d & Hd & Hi)].
      * destruct (idx x) as [j|] eqn:Hx; [|by left].
        destruct (decide (j = i)) as [->|Hne].
        -- right. exists x. split; [left | done].
        -- rewrite lookup_insert_ne in Hm by done. by left.
      * right. exists d. split; [by right | done].
    + intros [Hm | (d & Hd & Hi)].
      * left. destruct (idx x) as [j|]; [|done].
        destruct (decide (j = i)) as [->|Hne].
        -- rewrite lookup_insert_eq. by eexists.
        -- by rewrite lookup_insert_ne.
      * apply elem_of_cons in Hd as [->|Hd].
        -- left. rewrite Hi, lookup_insert_eq. by eexists.
        -- right. by exists d.
Qed.

Lemma by_idx_of_lookup docs i d :
  by_idx_of docs !! i = Some d → d ∈ docs ∧ idx d = Some i.
Proof.
  intros H. apply foldl_by_idx_lookup in H as [H|H]; [|done].
  by rewrite lookup_empty in H.
Qed.

Lemma by_idx_of_is_Some docs i :
  is_Some (by_idx_of docs !! i) ↔ ∃ d, d ∈ docs ∧ idx d = Some i.
Proof.
  unfold by_idx_of. rewrite foldl_by_idx_is_Some, lookup_empty.
  split; [intros [[? ?]|?]; done | by right].
Qed.

Lemma elem_of_find_by_ids repo ids d :
  d ∈ find_by_ids repo ids ↔ d ∈ coll repo ∧ ∃ i, idx d = Some i ∧ i ∈ ids.
Proof.
  unfold find_by_ids. rewrite list_elem_of_filter. unfold idx_in.
  destruct (idx d) as [i|].
  - rewrite bool_decide_eq_true. split.
    + intros [Hi Hd]. eauto.
    + intros [Hd (j & Hj & Hin)]. injection Hj as ->. done.
  - split; [intros [? _]; done | intros [_ (j & ? & _)]; done].
Qed.

Lemma in_store_spec repo i :
  in_store repo i = true ↔ ∃ d, d ∈ coll repo ∧ idx d = Some i.
Proof.
  unfold in_store. rewrite existsb_exists. split.
  - intros (d & Hd & Hi). apply bool_decide_eq_true in Hi.
    exists d. by rewrite list_elem_of_In.
  - intros (d & Hd & Hi). exists d. rewrite <- list_elem_of_In.
    split; [done | by apply bool_decide_eq_true].
Qed.

(** Looking the surviving ids up again yields one record per id, with
    that id. *)
Lemma lookup_all_present (m : gmap Z vacancy) (l : list Z) :
  (∀ i d, m !! i = Some d → idx d = Some i) →
  Forall (λ i, is_Some (m !! i)) l →
  idx <$> omap id ((λ i, m !! i) <$> l) = Some <$> l.
Proof.
  intros Hm. induction 1 as [|i l [d Hd] _ IH]; [done|].
  csimpl. rewrite Hd. csimpl. rewrite IH. f_equal. by eapply Hm.
Qed.

Lemma filter_iff_on {A} (P Q : A → Prop)
    `{!∀ x, Decision (P x), !∀ x, Decision (Q x)} (l : list A) :
  (∀ x, x ∈ l → P x ↔ Q x) → filter P l = filter Q l.
Proof.
  induction l as [|a l IH]; intros Hl; [done|].
  rewrite !filter_cons, IH by (intros; apply Hl; by right).
  apply decide_ext, Hl. by left.
Qed.

Lemma fetched_ids repo (top_idx : list Z) :
  idx <$> fetch_vacancies_in_order repo top_idx
  = Some <$> filter (λ i, in_store repo i = true) top_idx.
Proof.
  unfold fetch_vacancies_in_order.
  rewrite lookup_all_present.
  - f_equal. apply filter_iff_on. intros i Hi.
    rewrite by_idx_of_is_Some, in_store_spec. split.
    + intros (d & Hd & Hidx). apply elem_of_find_by_ids in Hd as [Hd _]. eauto.
    + intros (d & Hd & Hidx). exists d. split; [|done].
      apply elem_of_find_by_ids. eauto.
  - intros i d H. by apply by_idx_of_lookup in H as [_ ?].
  - apply Forall_forall. intros i Hi. by apply list_elem_of_filter in Hi as [? _].
Qed.

Lemma fetched_ids_omap repo (top_idx : list Z) :
  omap idx (fetch_vacancies_in_order repo top_idx)
  = filter (λ i, in_store repo i = true) top_idx.
Proof.
  pose proof (fetched_ids repo top_idx) as Hids. revert Hids.
  generalize (filter (λ i, in_store repo i = true) top_idx).
  induction (fetch_vacancies_in_order repo top_idx) as [|d l IH];
    intros [|x xs] H; simplify_eq/=; [done|].
  rewrite H. simpl. f_equal. by apply IH.
Qed.

Lemma fetched_from_store repo (top_idx : list Z) :
  Forall (λ d, d ∈ coll repo ∧ ∃ i, idx d = Some i ∧ i ∈ top_idx)
         (fetch_vacancies_in_order repo top_idx).
Proof.
  apply Forall_forall. intros d Hd.
  unfold fetch_vacancies_in_order in Hd.
  apply list_elem_of_omap in Hd as (o & Ho & Hd). simpl in Hd. subst o.
  apply list_elem_of_fmap in Ho as (i & Hl & Hi).
  apply list_elem_of_filter in Hi as [_ Hi]. symmetry in Hl.
  apply by_idx_of_lookup in Hl as [Hin Hidx].
  apply elem_of_find_by_ids in Hin as [Hin _]. eauto.
Qed.

(** Two kept elements keep their relative order under [filter]. *)
Lemma filter_keeps_order {A} (P : A → Prop) `{!∀ x, Decision (P x)}
    (l : list A) (i j : nat) a b :
  (i < j)%nat → l !! i = Some a → l !! j = Some b → P a → P b →
  ∃ p q, (p < q)%nat ∧ filter P l !! p = Some a ∧ filter P l !! q = Some b.
Proof.
  intros Hij Hi Hj Pa Pb.
  rewrite <- (take_drop_middle l i a Hi) in Hj |- *.
  assert (length (take i l) = i) as Hlen.
  { rewrite length_take. apply lookup_lt_Some in Hi. lia. }
  rewrite lookup_app_r in Hj by lia. rewrite Hlen in Hj.
  destruct (j - i)%nat as [|n] eqn:Hn; [lia|]. simpl in Hj.
  set (l2 := drop (S i) l) in *.
  rewrite <- (take_drop_middle l2 n b Hj).
  rewrite !filter_app, !filter_cons_True by done.
  rewrite filter_app, filter_cons_True by done.
  exists (length (filter P (take i l))),
         (length (filter P (take i l)) + S (length (filter P (take n l2))))%nat.
  split; [lia|]. split.
  - by rewrite lookup_app_r, Nat.sub_diag by lia.
  - rewrite lookup_app_r by lia.
    replace (_ + _ - _)%nat with (S (length (filter P (take n l2)))) by lia.
    simpl. by rewrite lookup_app_r, Nat.sub_diag by lia.
Qed.

End Fetcher.

(** C2: the fetcher returns, for the ids that have a record in the store,
    one record per id in the order of the input list: the fetched ids are
    the input list filtered by presence (so a subsequence of it), every
    record comes from the store, two present ids at input positions [i < j]
    have their records at fetched positions [p < q], and absent ids are
    dropped (the function is total). *)
Theorem fetch_vacancies_in_order_keeps_input_order
    (repo : VacanciesRepository) (top_idx : list Z) :
  let fetched := MatchService.fetch_vacancies_in_order repo top_idx in
  omap idx fetched = filter (λ i, in_store repo i = true) top_idx
  ∧ omap idx fetched `sublist_of` top_idx
  ∧ Forall (λ d, d ∈ coll repo ∧ ∃ i, idx d = Some i ∧ i ∈ top_idx) fetched
  ∧ ∀ (i j : nat) (a b : Z),
      (i < j)%nat → top_idx !! i = Some a → top_idx !! j = Some b →
      in_store repo a = true → in_store repo b = true →
      ∃ p q da db, (p < q)%nat
        ∧ fetched !! p = Some da ∧ idx da = Some a
        ∧ fetched !! q = Some db ∧ idx db = Some b.
Proof.
  intros fetched.
  pose proof (fetched_ids repo top_idx) as Hids. fold fetched in Hids.
  pose proof (fetched_ids_omap repo top_idx) as Hom. fold fetched in Hom.
  split; [done|]. split; [rewrite Hom; apply sublist_filter|].
  split; [apply fetched_from_store|].
  intros i j a b Hij Hi Hj Ha Hb.
  destruct (filter_keeps_order (λ i, in_store repo i = true) top_idx i j a b)
    as (p & q & Hpq & Hp & Hq); [done..|].
  assert ((idx <$> fetched) !! p = Some (Some a)) as Hp'
    by (by rewrite Hids, list_lookup_fmap, Hp).
  assert ((idx <$> fetched) !! q = Some (Some b)) as Hq'
    by (by rewrite Hids, list_lookup_fmap, Hq).
  exists p, q. rewrite !list_lookup_fmap in Hp', Hq'.
  destruct (fetched !! p) as [da|] eqn:Ep; [|done].
  destruct (fetched !! q) as [db|] eqn:Eq; [|done].
  exists da, db. simpl in *. by simplify_eq.
Qed.

Lemma fetch_vacancies_in_order_keeps_input_order_witness :
  ∃ p q da db, (p < q)%nat
    ∧ MatchService.fetch_vacancies_in_order sample_repo [10; 99; 7; 12] !! p = Some da
    ∧ idx da = Some 10
    ∧ MatchService.fetch_vacancies_in_order sample_repo [10; 99; 7; 12] !! q = Some db
    ∧ idx db = Some 12.
Proof.
  apply (proj2 (proj2 (proj2
           (fetch_vacancies_in_order_keeps_input_order sample_repo [10; 99; 7; 12])))
           0%nat 3%nat 10 12); [lia | reflexivity..].
Defined.

(** ** The effect monad *)

Section MonadFacts.

Lemma mret_Ok_inv {A} (a a' : A) n n' :
  mret (M := M) a n = (n', Ok a') → a' = a ∧ n' = n.
Proof. unfold mret, M_ret. intros; by simplify_eq. Qed.

Lemma bind_Ok_inv {A B} (m : M A) (f : A → M B) n n' b :
  (m ≫= f) n = (n', Ok b) →
  ∃ a n1, m n = (n1, Ok a) ∧ f a n1 = (n', Ok b).
Proof.
  unfold mbind, M_bind. destruct (m n) as [n1 [a|e]]; [eauto | done].
Qed.

Lemma fmap_Ok_inv {A B} (f : A → B) (m : M A) n n' b :
  (f <$> m) n = (n', Ok b) → ∃ a, m n = (n', Ok a) ∧ b = f a.
Proof.
  unfold fmap, M_fmap. destruct (m n) as [n1 [a|e]]; intros; simplify_eq; eauto.
Qed.

Lemma lift_Ok_inv {A} (r : result A) n n' a :
  lift r n = (n', Ok a) → r = Ok a ∧ n' = n.
Proof. unfold lift. intros; by simplify_eq. Qed.

Lemma result_bind_Ok_inv {A B} (r : result A) (f : A → result B) b :
  r ≫= f = Ok b → ∃ a, r = Ok a ∧ f a = Ok b.
Proof. destruct r; [eauto | done]. Qed.

Lemma mapM_Ok_inv {A B} (f : A → M B) (l : list A) n n' (r : list B) :
  mapM f l n = (n', Ok r) →
  Forall2 (λ x y, ∃ n1 n2, f x n1 = (n2, Ok y)) l r.
Proof.
  revert n n' r. induction l as [|x l IH]; intros n n' r H; simpl in H.
  - apply mret_Ok_inv in H as [-> _]. constructor.
  - apply bind_Ok_inv in H as (y & n1 & Hy & H).
    apply bind_Ok_inv in H as (k & n2 & Hk & H).
    apply mret_Ok_inv in H as [-> _].
    constructor; [by exists n, n1 | exact (IH _ _ _ Hk)].
Qed.

End MonadFacts.

(** ** Slices *)

Section Slices.
Context {A : Type}.
Implicit Types l : list A.

Lemma slice_to_nonneg l k : 0 ≤ k → slice_to l k = take (Z.to_nat k) l.
Proof. intros. unfold slice_to. by rewrite decide_True. Qed.

Lemma slice_to_sublist l k : slice_to l k `sublist_of` l.
Proof. unfold slice_to. case_decide; apply sublist_take. Qed.

Lemma slice_to_length l k :
  0 ≤ k → length (slice_to l k) = Nat.min (Z.to_nat k) (length l).
Proof. intros. by rewrite slice_to_nonneg, length_take. Qed.

Lemma slice_to_bounded l k : 0 ≤ k → Z.of_nat (length (slice_to l k)) ≤ k.
Proof. intros. rewrite slice_to_length by done. lia. Qed.

Lemma slice_to_nil k : slice_to (@nil A) k = [].
Proof. unfold slice_to. case_decide; by rewrite take_nil. Qed.

Lemma slice_to_nonempty l k : 0 < k → l ≠ [] → slice_to l k ≠ [].
Proof.
  intros Hk Hl. rewrite slice_to_nonneg by lia.
  destruct l; [done|]. destruct (Z.to_nat k) eqn:E; [lia | done].
Qed.

Lemma or_list_cases (a b : list A) :
  (a ≠ [] ∧ or_list a b = a) ∨ (a = [] ∧ or_list a b = b).
Proof. destruct a; [by right | by left]. Qed.

Lemma or_list_sublist (a b l : list A) :
  a `sublist_of` l → b `sublist_of` l → or_list a b `sublist_of` l.
Proof. by destruct a. Qed.

End Slices.

(** ** Staged selector *)

Section Selector.
Import MatchService.
Context `{SO : StrOps} `{JL : JsonLib} `{NP : Numpy} (w : world).

(** A run of [stage1_select] that returns does so through a slice to
    [limit]. *)
Lemma stage1_select_Ok system_prompt context_text limit n n' ids :
  stage1_select w system_prompt context_text limit n = (n', Ok ids) →
  ∃ selected, ids = slice_to selected limit.
Proof.
  unfold stage1_select. intros H.
  apply bind_Ok_inv in H as (outcome & n1 & _ & H).
  destruct outcome as [selected|]; apply mret_Ok_inv in H as [-> _].
  - by exists selected.
  - exists []. by rewrite slice_to_nil.
Qed.

Lemma selected_by_true selected d i :
  idx d = Some i → selected_by selected d = true ↔ i ∈ selected.
Proof. unfold selected_by. intros ->. apply bool_decide_eq_true. Qed.

Lemma keep_selected_Ok selected candidates kept :
  keep_selected selected candidates = Ok kept →
  kept = filter (λ d, selected_by selected d = true) candidates
  ∧ Forall (λ d, is_Some (idx d)) candidates.
Proof.
  revert kept. induction candidates as [|d rest IH]; intros kept H; simpl in H.
  - by simplify_eq.
  - apply result_bind_Ok_inv in H as (i & Hi & H).
    apply result_bind_Ok_inv in H as (kept' & Hk & H).
    destruct (IH _ Hk) as [-> Hall]. unfold require_idx in Hi.
    destruct (idx d) as [j|] eqn:Hd; simplify_eq. split.
    + rewrite filter_cons.
      destruct (decide (i ∈ selected)) as [Hin|Hin].
      * by rewrite decide_True by (by eapply selected_by_true).
      * rewrite decide_False; [done|]. by rewrite selected_by_true.
    + constructor; [by rewrite Hd | done].
Qed.

Lemma keep_selected_total selected candidates :
  Forall (λ d, is_Some (idx d)) candidates →
  keep_selected selected candidates
  = Ok (filter (λ d, selected_by selected d = true) candidates).
Proof.
  induction 1 as [|d rest [i Hd] _ IH]; [done|].
  simpl. unfold require_idx. rewrite Hd. simpl. rewrite IH. simpl.
  rewrite filter_cons. f_equal.
  destruct (decide (i ∈ selected)) as [Hin|Hin].
  - by rewrite decide_True by (by eapply selected_by_true).
  - rewrite decide_False; [done|]. by rewrite selected_by_true.
Qed.

Lemma narrow_Ok selected candidates k out :
  narrow selected candidates k = Ok out →
  out = or_list (slice_to (filter (λ d, selected_by selected d = true) candidates) k)
                (slice_to candidates k)
  ∧ Forall (λ d, is_Some (idx d)) candidates.
Proof.
  unfold narrow. intros H. apply result_bind_Ok_inv in H as (kept & Hk & H).
  apply keep_selected_Ok in Hk as [-> ?]. by simplify_eq.
Qed.

Lemma narrow_total selected candidates k :
  Forall (λ d, is_Some (idx d)) candidates →
  narrow selected candidates k
  = Ok (or_list (slice_to (filter (λ d, selected_by selected d = true) candidates) k)
                (slice_to candidates k)).
Proof. intros H. unfold narrow. by rewrite keep_selected_total. Qed.

Lemma narrow_sublist selected candidates k out :
  narrow selected candidates k = Ok out → out `sublist_of` candidates.
Proof.
  intros H. apply narrow_Ok in H as [-> _]. apply or_list_sublist.
  - etrans; [apply slice_to_sublist | apply sublist_filter].
  - apply slice_to_sublist.
Qed.

Lemma narrow_bounded selected candidates k out :
  0 ≤ k → narrow selected candidates k = Ok out → Z.of_nat (length out) ≤ k.
Proof.
  intros Hk H. apply narrow_Ok in H as [-> _].
  destruct (or_list_cases
              (slice_to (filter (λ d, selected_by selected d = true) candidates) k)
              (slice_to candidates k)) as [[_ ->] | [_ ->]];
    by apply slice_to_bounded.
Qed.

End Selector.

(** ** Match pipeline *)

Section Pipeline.
Import MatchService.
Context `{SO : StrOps} `{JL : JsonLib} `{PR : Prompts}.
Context `{NP : Numpy} `{FA : !Faiss}.
Context (w : world) (g : LoadEmbeddings.globals).

Lemma faiss_search_Ok q_vec k n n' top_idx_list :
  faiss_search g q_vec k n = (n', Ok top_idx_list) →
  LoadEmbeddings.search_top_k g q_vec k = Ok top_idx_list ∧ top_idx_list ≠ [].
Proof.
  unfold faiss_search, try_except, mbind, M_bind, lift, raise, mret, M_ret.
  destruct (LoadEmbeddings.search_top_k g q_vec k) as [[|i l]|e];
    repeat case_match; intros; by simplify_eq.
Qed.

Lemma fetched_have_idx repo top_idx_list :
  Forall (λ d, is_Some (idx d)) (fetch_vacancies_in_order repo top_idx_list).
Proof.
  eapply Forall_impl; [apply fetched_from_store|].
  intros d (_ & i & -> & _). by eexists.
Qed.

(** What a run that returns has computed: either the fetcher found
    nothing, or both stages ended in [narrow]. *)
Lemma match_vacancies_locals_Ok request repo n n' resp ol :
  match_vacancies_locals w g request repo n = (n', Ok (resp, ol)) →
  ∃ q_vec top_idx_list,
    LoadEmbeddings.search_top_k g q_vec (k_faiss request) = Ok top_idx_list
    ∧ top_idx_list ≠ []
    ∧ ((fetch_vacancies_in_order repo top_idx_list = []
        ∧ ol = None ∧ resp = mkResponse top_idx_list [] [])
       ∨ ∃ ids1 ids2 stage2 final result c1 c2 n1 n2 n3 n4 n5,
           fetch_vacancies_in_order repo top_idx_list ≠ []
           ∧ stage1_select w MATCH_SYSTEM_PROMPT_STAGE1 c1 (k_stage1 request) n1
             = (n2, Ok ids1)
           ∧ narrow (list_to_set ids1)
               (fetch_vacancies_in_order repo top_idx_list) (k_stage1 request)
             = Ok stage2
           ∧ stage2_select w MATCH_SYSTEM_PROMPT_STAGE2 c2 (k_stage2 request) n3
             = (n4, Ok ids2)
           ∧ narrow (list_to_set ids2) stage2 (k_stage2 request) = Ok final
           ∧ mapM (to_matched w) final n5 = (n', Ok result)
           ∧ ol = Some (Locals top_idx_list
                          (fetch_vacancies_in_order repo top_idx_list)
                          (list_to_set ids1) stage2 (list_to_set ids2) final)
           ∧ resp = mkResponse (slice_to top_idx_list (k_faiss request))
                      (elements (list_to_set (C := gset Z) ids1)) result).
Proof.
  unfold match_vacancies_locals. intros H.
  apply bind_Ok_inv in H as (aug_text & n1 & _ & H).
  apply bind_Ok_inv in H as (q_vec & n2 & _ & H).
  apply bind_Ok_inv in H as (top_idx_list & n3 & Hs & H).
  apply faiss_search_Ok in Hs as [Hs Hne].
  exists q_vec, top_idx_list. split; [done|]. split; [done|].
  destruct (fetch_vacancies_in_order repo top_idx_list) as [|d0 ordered] eqn:Ho.
  - left. apply mret_Ok_inv in H as [? _]. by simplify_eq.
  - right.
    apply bind_Ok_inv in H as (items & n4 & _ & H).
    apply bind_Ok_inv in H as (S1 & n5 & H1 & H).
    apply fmap_Ok_inv in H1 as (ids1 & H1 & ->).
    apply bind_Ok_inv in H as (stage2 & n6 & Hn1 & H).
    apply lift_Ok_inv in Hn1 as [Hn1 ->].
    apply bind_Ok_inv in H as (S2 & n7 & H2 & H).
    apply fmap_Ok_inv in H2 as (ids2 & H2 & ->).
    apply bind_Ok_inv in H as (final & n8 & Hn2 & H).
    apply lift_Ok_inv in Hn2 as [Hn2 ->].
    apply bind_Ok_inv in H as (result & n9 & Hr & H).
    apply mret_Ok_inv in H as [? ->]. simplify_eq.
    eexists ids1, ids2, stage2, final, result, _, _, _, _, _, _, _.
    repeat split; eauto.
Qed.

(** Both stages of a run that reaches the end are [narrow] over records
    that carry an idx. *)
Lemma match_vacancies_stages request repo n n' resp L :
  match_vacancies_locals w g request repo n = (n', Ok (resp, Some L)) →
  Forall (λ d, is_Some (idx d)) (l_ordered L)
  ∧ l_ordered L ≠ []
  ∧ narrow (l_stage1_selected L) (l_ordered L) (k_stage1 request)
    = Ok (l_stage2 L)
  ∧ narrow (l_stage2_selected L) (l_stage2 L) (k_stage2 request)
    = Ok (l_final L).
Proof.
  intros H.
  apply match_vacancies_locals_Ok in H
    as (q & top & _ & _ & [(_ & ? & _) | H]); [done|].
  destruct H as (ids1 & ids2 & stage2 & final & result & c1 & c2
                 & n1 & n2 & n3 & n4 & n5 & Hne & _ & Hn1 & _ & Hn2 & _ & HL & _).
  simplify_eq. simpl. split; [apply fetched_have_idx | done].
Qed.

Lemma to_matched_idx d n n' mv :
  to_matched w d n = (n', Ok mv) → idx d = Some (mv_idx mv).
Proof.
  unfold to_matched. intros H.
  apply bind_Ok_inv in H as (level & n1 & _ & H).
  apply bind_Ok_inv in H as (i & n2 & Hi & H).
  apply lift_Ok_inv in Hi as [Hi ->]. apply mret_Ok_inv in H as [-> _].
  unfold require_idx in Hi. by destruct (idx d); simplify_eq.
Qed.

Lemma matched_ids final n n' (result : list MatchedVacancy) :
  mapM (to_matched w) final n = (n', Ok result) →
  idx <$> final = Some ∘ mv_idx <$> result.
Proof.
  intros H. apply mapM_Ok_inv in H.
  induction H as [|d mv final result (n1 & n2 & Hd) _ IH]; [done|].
  csimpl. rewrite IH. f_equal. by eapply to_matched_idx.
Qed.

End Pipeline.

Section Bounds.
Import MatchService.
Context `{SO : StrOps} `{JL : JsonLib} `{PR : Prompts}.
Context `{NP : Numpy} `{FA : !Faiss}.

Lemma size_list_to_set_le (l : list Z) :
  (size (list_to_set (C := gset Z) l) ≤ length l)%nat.
Proof.
  induction l as [|x l IH].
  - by rewrite list_to_set_nil, size_empty.
  - rewrite list_to_set_cons, size_union_alt, size_singleton. simpl.
    assert (list_to_set (C := gset Z) l ∖ {[x]} ⊆ list_to_set l) as Hsub
      by apply subseteq_difference_l, reflexivity.
    apply subseteq_size in Hsub. lia.
Qed.

Lemma stage1_select_bounded (w : world) system_prompt context_text limit
    n n' ids :
  0 ≤ limit →
  stage1_select w system_prompt context_text limit n = (n', Ok ids) →
  Z.of_nat (length ids) ≤ limit.
Proof.
  intros Hl H. apply stage1_select_Ok in H as [selected ->].
  by apply slice_to_bounded.
Qed.

Lemma pipeline_bounded (w : world) g request repo n n' resp L :
  valid_request request →
  match_vacancies_locals w g request repo n = (n', Ok (resp, Some L)) →
  Z.of_nat (size (l_stage1_selected L)) ≤ k_stage1 request
  ∧ Z.of_nat (length (l_stage2 L)) ≤ k_stage1 request
  ∧ Z.of_nat (size (l_stage2_selected L)) ≤ k_stage2 request
  ∧ Z.of_nat (length (l_final L)) ≤ k_stage2 request
  ∧ Z.of_nat (length (result_list resp)) ≤ k_stage2 request.
Proof.
  intros (_ & [Hk1 _] & [Hk2 _]) H.
  apply match_vacancies_locals_Ok in H
    as (q & top & _ & _ & [(_ & ? & _) | H]); [done|].
  destruct H as (ids1 & ids2 & stage2 & final & result & c1 & c2
                 & n1 & n2 & n3 & n4 & n5 & _ & H1 & Hn1 & H2 & Hn2 & Hr & HL & ->).
  simplify_eq. simpl.
  apply stage1_select_bounded in H1; [|lia].
  apply stage1_select_bounded in H2; [|lia].
  pose proof (size_list_to_set_le ids1). pose proof (size_list_to_set_le ids2).
  apply narrow_bounded in Hn1; [|lia].
  pose proof Hn2 as Hf. apply narrow_bounded in Hf; [|lia].
  apply matched_ids in Hr. apply (f_equal length) in Hr.
  rewrite !length_fmap in Hr. lia.
Qed.

(** C3: the staged selection returns at most [limit] ids whatever the
    model answers, and in a run of the pipeline the id set of stage 1 and
    the candidate lists handed from stage 1 to stage 2 and from stage 2 to
    the result are bounded by [k_stage1] and [k_stage2].  A size bound is
    not negative; the request model enforces [k >= 1]. *)
Theorem staged_selection_bounded :
  (∀ (w : world) system_prompt context_text limit n n' ids,
      0 ≤ limit →
      stage1_select w system_prompt context_text limit n = (n', Ok ids) →
      Z.of_nat (length ids) ≤ limit)
  ∧ (∀ (w : world) g request repo n n' resp L,
      valid_request request →
      match_vacancies_locals w g request repo n = (n', Ok (resp, Some L)) →
      Z.of_nat (size (l_stage1_selected L)) ≤ k_stage1 request
      ∧ Z.of_nat (length (l_stage2 L)) ≤ k_stage1 request
      ∧ Z.of_nat (size (l_stage2_selected L)) ≤ k_stage2 request
      ∧ Z.of_nat (length (l_final L)) ≤ k_stage2 request
      ∧ Z.of_nat (length (result_list resp)) ≤ k_stage2 request).
Proof. split; [apply stage1_select_bounded | apply pipeline_bounded]. Qed.

(** C10: a run of the pipeline never introduces candidates.  The result
    has at most [k_stage2] entries; the stage-2 input is a sublist of the
    fetched list, which holds the vector search's ids that the store
    knows, in the order of the search; the finalists are a sublist of the
    stage-2 input; the results are the finalists in order, and each
    result idx is among the ids the vector search returned. *)
Theorem match_vacancies_never_introduces_candidates
    (w : world) g request repo n n' resp ol :
  valid_request request →
  match_vacancies_locals w g request repo n = (n', Ok (resp, ol)) →
  Z.of_nat (length (result_list resp)) ≤ k_stage2 request
  ∧ (∃ q_vec top_idx_list,
       LoadEmbeddings.search_top_k g q_vec (k_faiss request) = Ok top_idx_list
       ∧ (∀ mv, mv ∈ result_list resp → mv_idx mv ∈ top_idx_list)
       ∧ match ol with
         | None => result_list resp = [] ∧ top_idx resp = top_idx_list
         | Some L =>
             top_idx resp = slice_to top_idx_list (k_faiss request)
             ∧ l_top_idx_list L = top_idx_list
             ∧ l_ordered L = fetch_vacancies_in_order repo top_idx_list
             ∧ l_stage2 L `sublist_of` l_ordered L
             ∧ l_final L `sublist_of` l_stage2 L
             ∧ idx <$> l_final L = Some ∘ mv_idx <$> result_list resp
         end).
Proof.
  intros Hv H.
  pose proof Hv as (_ & _ & [Hk2 _]).
  pose proof H as Hrun.
  apply match_vacancies_locals_Ok in H
    as (q & top & Hs & _ & [(_ & -> & ->) | H]).
  { simpl. split; [lia|]. exists q, top. repeat split; try done.
    intros mv Hmv. by apply elem_of_nil in Hmv. }
  destruct H as (ids1 & ids2 & stage2 & final & result & c1 & c2
                 & n1 & n2 & n3 & n4 & n5 & _ & H1 & Hn1 & H2 & Hn2 & Hr & -> & ->).
  split.
  { by apply (pipeline_bounded w g request repo n n' _ _ Hv Hrun). }
  exists q, top. simpl. split; [done|].
  pose proof (narrow_sublist _ _ _ _ Hn1) as Hsub1.
  pose proof (narrow_sublist _ _ _ _ Hn2) as Hsub2.
  pose proof (matched_ids _ _ _ _ _ Hr) as Hids.
  split; [|done].
  intros mv Hmv.
  assert (Some (mv_idx mv) ∈ idx <$> final) as Hin.
  { rewrite Hids. apply list_elem_of_fmap. by exists mv. }
  apply list_elem_of_fmap in Hin as (d & Hd & Hin).
  assert (d ∈ fetch_vacancies_in_order repo top) as Hfetched.
  { eapply elem_of_sublist; [exact Hin|]. by etrans. }
  pose proof (fetched_from_store repo top) as Hall.
  rewrite Forall_forall in Hall. destruct (Hall d Hfetched) as (_ & i & Hi & Htop).
  assert (i = mv_idx mv) as -> by congruence. exact Htop.
Qed.

End Bounds.

Lemma staged_selection_bounded_witness :
  (∃ n' ids,
     MatchService.stage1_select Sample.world0 "pick {limit}" "candidates" 2 3%nat
       = (n', Ok ids)
     ∧ Z.of_nat (length ids) ≤ 2)
  ∧ (∃ n' resp L,
       MatchService.match_vacancies_locals Sample.world0 Sample.globals0
         Sample.request0 sample_repo 0%nat = (n', Ok (resp, Some L))
       ∧ Z.of_nat (length (MatchService.l_stage2 L)) ≤ 2
       ∧ Z.of_nat (length (result_list resp)) ≤ 2).
Proof.
  split.
  - eexists _, _. split; [vm_compute; reflexivity|].
    eapply (proj1 staged_selection_bounded Sample.world0 "pick {limit}" "candidates"
              2 3%nat); [lia | vm_compute; reflexivity].
  - eexists _, _, _. split; [vm_compute; reflexivity|].
    edestruct (proj2 staged_selection_bounded Sample.world0 Sample.globals0
                 Sample.request0 sample_repo 0%nat) as (_ & H2 & _ & _ & Hr);
      [unfold valid_request; simpl; lia | vm_compute; reflexivity |].
    split; [exact H2 | exact Hr].
Defined.

Lemma match_vacancies_never_introduces_candidates_witness :
  ∃ n' resp L,
    MatchService.match_vacancies_locals Sample.world0 Sample.globals0
      Sample.request0 sample_repo 0%nat = (n', Ok (resp, Some L))
    ∧ Z.of_nat (length (result_list resp)) ≤ 2
    ∧ MatchService.l_stage2 L `sublist_of` MatchService.l_ordered L
    ∧ MatchService.l_final L `sublist_of` MatchService.l_stage2 L
    ∧ ∀ mv, mv ∈ result_list resp → mv_idx mv ∈ MatchService.l_top_idx_list L.
Proof.
  destruct (MatchService.match_vacancies_locals Sample.world0 Sample.globals0
              Sample.request0 sample_repo 0%nat) as [n' [[resp [L|]]|e]] eqn:Hrun;
    [|vm_compute in Hrun; discriminate..].
  exists n', resp, L. split; [reflexivity|].
  assert (valid_request Sample.request0) as Hvalid
    by (unfold valid_request; simpl; lia).
  pose proof (match_vacancies_never_introduces_candidates _ _ _ _ _ _ _ _
                Hvalid Hrun) as (Hlen & q & top & _ & Hin & H).
  simpl in H. destruct H as (_ & Htop & _ & Hs1 & Hs2 & _).
  split; [exact Hlen|]. split; [exact Hs1|]. split; [exact Hs2|].
  intros mv Hmv. rewrite Htop. by apply Hin.
Defined.

(** The scenario of a model that answers the stage-1 prompt with the ids
    10 and 99 for the candidates 10, 11, 12 and the limit 2: the selector
    returns both ids and the stage keeps the single candidate 10. *)
Example stage1_scenario :
  MatchService.stage1_select Sample.world0 "pick {limit}" "candidates" 2 2%nat
    = (3%nat, Ok [10; 99])
  ∧ MatchService.narrow (list_to_set [10; 99]) Sample.candidates0 2
    = Ok [doc 10 "Financial controller"].
Proof. split; vm_compute; reflexivity. Qed.

(** C1 as stated fails: with fewer selected candidates than
    [min limit (length candidates)] the stage output is neither the prefix
    of the input list nor that long. *)
Lemma stage_fill_counterexample :
  ¬ (∀ (selected : gset Z) (candidates : list vacancy) (limit : Z) out,
       candidates ≠ [] → 0 < limit →
       MatchService.narrow selected candidates limit = Ok out →
       (length (filter (λ d, selected_by selected d = true) candidates)
        < Nat.min (Z.to_nat limit) (length candidates))%nat →
       out = slice_to candidates limit
       ∧ (Nat.min (Z.to_nat limit) (length candidates) ≤ length out)%nat).
Proof.
  intros H.
  destruct (H (list_to_set [10; 99]) Sample.candidates0 2
              [doc 10 "Financial controller"]) as [_ Hlen].
  - done.
  - lia.
  - vm_compute; reflexivity.
  - vm_compute; lia.
  - vm_compute in Hlen. lia.
Qed.

(** C1 amended: over a non-empty candidate list with a positive limit, the
    prefix of the input list is the stage output exactly when no candidate
    is selected, and then it has [min limit (length candidates)] entries;
    otherwise the output is the selected candidates in input order, cut at
    [limit].  The output is never empty.  Both stages of [match_vacancies]
    end in [narrow] over records that carry an idx
    ([match_vacancies_stages]). *)
Theorem narrow_falls_back_on_empty_selection
    (selected : gset Z) (candidates : list vacancy) (limit : Z) :
  candidates ≠ [] → 0 < limit →
  Forall (λ d, is_Some (idx d)) candidates →
  let chosen := filter (λ d, selected_by selected d = true) candidates in
  (chosen = [] →
     MatchService.narrow selected candidates limit
       = Ok (take (Z.to_nat limit) candidates)
     ∧ length (take (Z.to_nat limit) candidates)
       = Nat.min (Z.to_nat limit) (length candidates))
  ∧ (chosen ≠ [] →
     MatchService.narrow selected candidates limit
       = Ok (take (Z.to_nat limit) chosen))
  ∧ (∃ out, MatchService.narrow selected candidates limit = Ok out ∧ out ≠ []).
Proof.
  intros Hne Hl Hidx chosen.
  pose proof (narrow_total selected candidates limit Hidx) as Hn.
  fold chosen in Hn. rewrite !slice_to_nonneg in Hn by lia.
  assert (take (Z.to_nat limit) candidates ≠ []) as Hprefix.
  { rewrite <- slice_to_nonneg by lia. by apply slice_to_nonempty. }
  split; [|split].
  - intros Hc. rewrite Hc, take_nil in Hn. simpl in Hn.
    split; [done | apply length_take].
  - intros Hc. rewrite Hn. f_equal.
    destruct (or_list_cases (take (Z.to_nat limit) chosen)
                (take (Z.to_nat limit) candidates)) as [[_ ->] | [He _]]; [done|].
    exfalso. rewrite <- slice_to_nonneg in He by lia.
    by eapply slice_to_nonempty in He.
  - eexists. split; [exact Hn|].
    destruct (or_list_cases (take (Z.to_nat limit) chosen)
                (take (Z.to_nat limit) candidates)) as [[? ->] | [_ ->]]; done.
Qed.

Lemma narrow_falls_back_on_empty_selection_witness :
  MatchService.narrow (list_to_set [99]) Sample.candidates0 2
    = Ok [doc 10 "Financial controller"; doc 11 "Auditor"]
  ∧ length (take (Z.to_nat 2) Sample.candidates0) = 2%nat.
Proof.
  apply (proj1 (narrow_falls_back_on_empty_selection
                  (list_to_set [99]) Sample.candidates0 2
                  ltac:(done) ltac:(lia)
                  ltac:(repeat constructor; by eexists))).
  vm_compute; reflexivity.
Defined.

(** ** Vector index *)

Section VectorIndex.
Import LoadEmbeddings.
Context `{NP : Numpy} `{FA : !Faiss}.

(** C4: a query whose norm is exactly zero never yields a ranking, and
    on a built index it fails with the [ValueError] of the zero check; a
    query with a non-zero norm passes the check on a built index and the
    outcome is that of the graph search over the normalized query. *)
Theorem search_top_k_rejects_zero_norm (g : globals) (query_vec : list F) (k : Z) :
  (f_is_zero (linalg_norm query_vec) = true →
     ∃ e, search_top_k g query_vec k = Raise e)
  ∧ (index_ready g → f_is_zero (linalg_norm query_vec) = true →
     search_top_k g query_vec k
       = Raise (Exc ValueError "Query vector cannot be zero"))
  ∧ (index_ready g → f_is_zero (linalg_norm query_vec) = false →
     ∃ index, faiss_index g = Some index
       ∧ search_top_k g query_vec k
         = match index_search index
                   ((λ x, astype_float32 (f_div x (linalg_norm query_vec)))
                      <$> query_vec)
                   (k `min` Z.of_nat (length (vacancy_ids g))) with
           | Raise e => Raise e
           | Ok row => Ok (map_positions (vacancy_ids g) row)
           end).
Proof.
  unfold index_ready, search_top_k. split; [|split].
  - intros Hz. destruct (FAISS_AVAILABLE g); simpl; [|by eexists].
    destruct (faiss_index g); [|by eexists].
    case_decide; [by eexists|]. rewrite Hz. by eexists.
  - intros (-> & [index ->] & Hids) Hz. simpl.
    rewrite decide_False by (by destruct (vacancy_ids g)). by rewrite Hz.
  - intros (-> & [index ->] & Hids) Hz. simpl. exists index. split; [done|].
    rewrite decide_False by (by destruct (vacancy_ids g)). by rewrite Hz.
Qed.

(** C5: while the index is not built (no index reference, or an empty id
    list) every search raises a [RuntimeError], and no run of the match
    pipeline returns a response. *)
Theorem search_top_k_fails_when_not_built (g : globals) :
  faiss_index g = None ∨ vacancy_ids g = [] →
  (∀ (query_vec : list F) (k : Z),
      ∃ msg, search_top_k g query_vec k = Raise (Exc RuntimeError msg))
  ∧ (∀ `{SO : StrOps} `{JL : JsonLib} `{PR : Prompts} (w : world) request repo
       n n' resp,
      MatchService.match_vacancies w g request repo n ≠ (n', Ok resp)).
Proof.
  intros Hnot.
  assert (∀ (query_vec : list F) (k : Z),
      ∃ msg, search_top_k g query_vec k = Raise (Exc RuntimeError msg)) as Hs.
  { intros q k. unfold search_top_k.
    destruct (FAISS_AVAILABLE g); simpl; [|by eexists].
    destruct Hnot as [-> | ->]; [by eexists|].
    destruct (faiss_index g); by eexists. }
  split; [exact Hs|].
  intros SO JL PR w request repo n n' resp H.
  unfold MatchService.match_vacancies in H.
  apply fmap_Ok_inv in H as ([resp' ol] & H & _).
  apply match_vacancies_locals_Ok in H as (q & top & Hq & _).
  destruct (Hs q (k_faiss request)) as [msg Hmsg]. congruence.
Qed.

(** The query enters the search through the zero test on its norm and
    through its normalized form only. *)
Lemma search_top_k_normalized_query (g : globals) (q1 q2 : list F) (k : Z) :
  f_is_zero (linalg_norm q1) = f_is_zero (linalg_norm q2) →
  (λ x, astype_float32 (f_div x (linalg_norm q1))) <$> q1
    = (λ x, astype_float32 (f_div x (linalg_norm q2))) <$> q2 →
  search_top_k g q1 k = search_top_k g q2 k.
Proof. unfold search_top_k. by intros -> ->. Qed.

(** C9 amended: a query [v] and a scaling [cv] of it whose computed
    norms are both non-zero and whose normalized float32 vectors are equal
    are searched alike: the same ordered id list, or the same error.  In
    exact arithmetic every positive scaling of a non-zero query meets the
    two conditions; in floating point they are conditions on the rounding
    of the norm and of the divisions. *)
Theorem search_top_k_scaled_query (g : globals) (v cv : list F) (k : Z) :
  f_is_zero (linalg_norm v) = false →
  f_is_zero (linalg_norm cv) = false →
  (λ x, astype_float32 (f_div x (linalg_norm cv))) <$> cv
    = (λ x, astype_float32 (f_div x (linalg_norm v))) <$> v →
  search_top_k g cv k = search_top_k g v k.
Proof.
  intros Hv Hcv Hsame. unfold search_top_k.
  destruct (FAISS_AVAILABLE g); [|done]. simpl.
  destruct (faiss_index g) as [index|]; [|done].
  case_decide; [done|]. by rewrite Hv, Hcv, Hsame.
Qed.

(** After [build_faiss] the globals are either unbuilt or ready. *)
Lemma build_faiss_state dir g :
  FAISS_AVAILABLE g = true →
  build_faiss dir g = unbuilt g ∨ index_ready (build_faiss dir g).
Proof.
  intros Ha. unfold build_faiss. rewrite Ha. simpl.
  repeat case_match; try by left.
  right. unfold index_ready. simpl. repeat split; eauto.
  intros ->. done.
Qed.

End VectorIndex.

(** On binary32 the norm of the non-zero vector [(2^-100, 0, 0)] underflows
    to zero and the query is rejected, while the same vector scaled by
    [2^100] is served: whether two scalings of a query are searched alike is
    decided by the rounding of the floating-point library. *)
Example tiny_query_underflows :
  LoadEmbeddings.search_top_k Sample.globals0
    [S754_finite false 8388608 (-123); Reference.f32_zero; Reference.f32_zero] 3
    = Raise (Exc ValueError "Query vector cannot be zero")
  ∧ LoadEmbeddings.search_top_k Sample.globals0
      [Reference.f32_mul (S754_finite false 8388608 77)
         (S754_finite false 8388608 (-123));
       Reference.f32_zero; Reference.f32_zero] 3
    = Ok [11; 10; 12].
Proof. split; vm_compute; reflexivity. Qed.

(** C9 as stated fails on binary32: the query [(2^-100, 0, 0)] is not zero,
    yet its computed norm is, and the search rejects it; its multiple by the
    positive scalar [2^100] is served. *)
Lemma scaled_query_counterexample :
  ¬ (∀ (v : list spec_float) (c : spec_float) (k : Z),
       Exists (λ x, SFeqb x Reference.f32_zero = false) v →
       SFltb Reference.f32_zero c = true →
       LoadEmbeddings.search_top_k Sample.globals0 (Reference.f32_mul c <$> v) k
       = LoadEmbeddings.search_top_k Sample.globals0 v k).
Proof.
  intros H.
  specialize (H [S754_finite false 8388608 (-123); Reference.f32_zero;
                 Reference.f32_zero]
                (S754_finite false 8388608 77) 3).
  assert (LoadEmbeddings.search_top_k Sample.globals0
            (Reference.f32_mul (S754_finite false 8388608 77)
               <$> [S754_finite false 8388608 (-123); Reference.f32_zero;
                    Reference.f32_zero]) 3
          = Ok [11; 10; 12]) as Hserved by (vm_compute; reflexivity).
  assert (LoadEmbeddings.search_top_k Sample.globals0
            [S754_finite false 8388608 (-123); Reference.f32_zero;
             Reference.f32_zero] 3
          = Raise (Exc ValueError "Query vector cannot be zero")) as Hrejected
    by (vm_compute; reflexivity).
  rewrite Hserved, Hrejected in H. discriminate H.
  - apply Exists_cons_hd. vm_compute; reflexivity.
  - vm_compute; reflexivity.
Qed.

Lemma search_top_k_scaled_query_witness :
  LoadEmbeddings.search_top_k Sample.globals0
    (Reference.f32_mul (Reference.f32_of_Z 2) <$> Sample.vec [2; 0; 1]) 3
  = LoadEmbeddings.search_top_k Sample.globals0 (Sample.vec [2; 0; 1]) 3.
Proof.
  apply (search_top_k_scaled_query Sample.globals0 (Sample.vec [2; 0; 1])
           (Reference.f32_mul (Reference.f32_of_Z 2) <$> Sample.vec [2; 0; 1]) 3);
    vm_compute; reflexivity.
Defined.

Lemma search_top_k_rejects_zero_norm_witness :
  LoadEmbeddings.search_top_k Sample.globals0 (Sample.vec [0; 0; 0]) 3
    = Raise (Exc ValueError "Query vector cannot be zero")
  ∧ LoadEmbeddings.search_top_k Sample.globals0 (Sample.vec [2; 0; 1]) 3
    = Ok [10; 11; 12].
Proof.
  assert (index_ready Sample.globals0) as Hready.
  { repeat split; [vm_compute; by eexists | vm_compute; discriminate]. }
  split.
  - apply (proj1 (proj2 (search_top_k_rejects_zero_norm Sample.globals0
                           (Sample.vec [0; 0; 0]) 3))); [exact Hready|].
    vm_compute; reflexivity.
  - destruct (proj2 (proj2 (search_top_k_rejects_zero_norm Sample.globals0
                              (Sample.vec [2; 0; 1]) 3)) Hready)
      as (index & Hindex & ->); [vm_compute; reflexivity|].
    vm_compute in Hindex. injection Hindex as <-. vm_compute; reflexivity.
Defined.

Lemma search_top_k_fails_when_not_built_witness :
  ∃ msg,
    LoadEmbeddings.search_top_k
      (LoadEmbeddings.Globals (FA := Reference.faiss) true None [])
      (Sample.vec [2; 0; 1]) 3
    = Raise (Exc RuntimeError msg).
Proof.
  apply (proj1 (search_top_k_fails_when_not_built
                  (LoadEmbeddings.Globals (FA := Reference.faiss) true None [])
                  (or_introl eq_refl))).
Defined.

(** ** Seniority classifier *)

Section Classifier.
Import MatchService.
Context `{SO : StrOps} `{NP : Numpy} (w : world).

Lemma prefix_occurs (needle text : string) :
  String.prefix needle text = true ↔ ∃ after, text = needle +:+ after.
Proof.
  revert text. induction needle as [|a needle IH]; intros text.
  - split; [intros _; by exists text | by destruct text].
  - destruct text as [|b text]; simpl.
    + split; [done | by intros [after ?]].
    + destruct (Ascii.ascii_dec a b) as [->|Hab].
      * rewrite IH. split; intros [after H]; exists after.
        -- by rewrite H.
        -- by injection H.
      * split; [done|]. intros [after H]. by injection H.
Qed.

Lemma contains_occurs (needle text : string) :
  contains needle text = true ↔ occurs needle text.
Proof.
  induction text as [|c text IH].
  - cbn [contains]. rewrite orb_false_r, prefix_occurs. split.
    + intros [after H]. by exists "", after.
    + intros ([|c before] & after & H); [by exists after | done].
  - cbn [contains]. rewrite orb_true_iff, prefix_occurs, IH. split.
    + intros [[after H] | (before & after & H)].
      * by exists "", after.
      * exists (String c before), after. by rewrite H.
    + intros ([|c' before] & after & H).
      * left. by exists after.
      * right. injection H as _ H. by exists before, after.
Qed.

Lemma any_in_has_keyword (words : list string) (text : string) :
  any_in words text = true ↔ has_keyword words text.
Proof.
  unfold any_in, has_keyword. rewrite existsb_exists.
  split; intros (word & Hin & H); exists word.
  - split; [by apply list_elem_of_In | by apply contains_occurs].
  - split; [by apply list_elem_of_In | by apply contains_occurs].
Qed.

Lemma any_in_no_keyword (words : list string) (text : string) :
  any_in words text = false ↔ ¬ has_keyword words text.
Proof.
  rewrite <- any_in_has_keyword. by destruct (any_in words text).
Qed.

Lemma contains_not_occurs (needle text : string) :
  contains needle text = false ↔ ¬ occurs needle text.
Proof.
  rewrite <- contains_occurs. by destruct (contains needle text).
Qed.

Lemma seniority_text_combined (vacancy : vacancy) :
  seniority_text vacancy = combined_text vacancy.
Proof.
  unfold seniority_text, combined_text.
  by destruct (title vacancy), (description vacancy), (experience vacancy),
    (key_skills vacancy).
Qed.

(** C6: the keyword sets are tried in the order Intern, Head, Expert,
    Advanced, Mid, Entry and the first of which a word occurs in the
    combined text of the candidate (title, description, experience and
    skills, in lower case) decides, without a call to the model; a text
    with an Intern keyword and a Head keyword is labelled Intern. *)
Theorem determine_seniority_level_precedence (vacancy : vacancy) (n : nat) :
  let text := combined_text vacancy in
  let label l := determine_seniority_level w vacancy n = (n, Ok l) in
  (has_keyword intern_words text → has_keyword head_words text →
     label "Стажер")
  ∧ (has_keyword intern_words text → label "Стажер")
  ∧ (¬ has_keyword intern_words text → has_keyword head_words text →
     label "Руководитель")
  ∧ (¬ has_keyword intern_words text → ¬ has_keyword head_words text →
     has_keyword expert_words text → label "Эксперт")
  ∧ (¬ has_keyword intern_words text → ¬ has_keyword head_words text →
     ¬ has_keyword expert_words text → has_keyword advanced_words text →
     label "Продвинутый")
  ∧ (¬ has_keyword intern_words text → ¬ has_keyword head_words text →
     ¬ has_keyword expert_words text → ¬ has_keyword advanced_words text →
     has_keyword mid_words text → label "Средний")
  ∧ (¬ has_keyword intern_words text → ¬ has_keyword head_words text →
     ¬ has_keyword expert_words text → ¬ has_keyword advanced_words text →
     ¬ has_keyword mid_words text → has_keyword entry_words text →
     label "Начальный").
Proof.
  intros text label. unfold label, determine_seniority_level.
  rewrite seniority_text_combined. fold text.
  repeat split; intros;
    repeat match goal with
           | H : has_keyword _ _ |- _ =>
               apply any_in_has_keyword in H; rewrite H
           | H : ¬ has_keyword _ _ |- _ =>
               apply any_in_no_keyword in H; rewrite H
           end;
    reflexivity.
Qed.

Lemma no_keyword_spec text :
  no_keyword text = true →
  any_in intern_words text = false ∧ any_in head_words text = false
  ∧ any_in expert_words text = false ∧ any_in advanced_words text = false
  ∧ any_in mid_words text = false ∧ any_in entry_words text = false.
Proof.
  unfold no_keyword. simpl. rewrite !andb_true_iff, !negb_true_iff. tauto.
Qed.

Lemma find_none_default (result : string) :
  names_no_level result = true →
  List.find (λ level, contains (str_lower level) (str_lower (str_strip result)))
    valid_levels = None.
Proof.
  unfold names_no_level. intros H.
  destruct (List.find _ valid_levels) as [level|] eqn:E; [|done].
  apply find_some in E as [Hin Hc].
  rewrite forallb_forall in H. apply H in Hin. by rewrite Hc in Hin.
Qed.

Lemma find_valid_level (p : string → bool) :
  default "Средний" (List.find p valid_levels) ∈ valid_levels.
Proof.
  destruct (List.find p valid_levels) as [level|] eqn:E; simpl.
  - apply find_some in E as [Hin _]. by apply list_elem_of_In.
  - unfold valid_levels. set_solver.
Qed.

(** C8: the classifier always returns one of the six labels and never
    raises; when no keyword matches and the model call fails, or the
    answer names none of the six labels (compared in lower case, as
    substrings), the label is [Средний] (Mid). *)
Theorem determine_seniority_level_defaults_to_mid (vacancy : vacancy) (n : nat) :
  (∃ n' level, determine_seniority_level w vacancy n = (n', Ok level)
               ∧ level ∈ valid_levels)
  ∧ (no_keyword (seniority_text vacancy) = true →
     match answer_of (sdk_completions w n false
                        [Message "system" (seniority_prompt vacancy)]) with
     | None => True
     | Some answer => names_no_level answer = true
     end →
     determine_seniority_level w vacancy n = (S n, Ok "Средний")).
Proof.
  split.
  - unfold determine_seniority_level.
    destruct (any_in intern_words _);
      [eexists _, _; split; [reflexivity | unfold valid_levels; set_solver]|].
    destruct (any_in head_words _);
      [eexists _, _; split; [reflexivity | unfold valid_levels; set_solver]|].
    destruct (any_in expert_words _);
      [eexists _, _; split; [reflexivity | unfold valid_levels; set_solver]|].
    destruct (any_in advanced_words _);
      [eexists _, _; split; [reflexivity | unfold valid_levels; set_solver]|].
    destruct (any_in mid_words _);
      [eexists _, _; split; [reflexivity | unfold valid_levels; set_solver]|].
    destruct (any_in entry_words _);
      [eexists _, _; split; [reflexivity | unfold valid_levels; set_solver]|].
    unfold try_except, fmap, M_fmap, mbind, M_bind, run_text_completion, sdk_run.
    destruct (sdk_completions w n false _) as [msg| |s]; cbv beta iota.
    + eexists _, _. split; [reflexivity|]. unfold valid_levels; set_solver.
    + eexists _, _. split; [reflexivity|]. apply find_valid_level.
    + eexists _, _. split; [reflexivity|]. apply find_valid_level.
  - intros Hk Ha. apply no_keyword_spec in Hk as (H1 & H2 & H3 & H4 & H5 & H6).
    unfold determine_seniority_level. rewrite H1, H2, H3, H4, H5, H6.
    unfold try_except, fmap, M_fmap, mbind, M_bind, run_text_completion, sdk_run.
    destruct (sdk_completions w n false _) as [msg| |s]; simpl in Ha;
      cbv beta iota; [done | by rewrite find_none_default..].
Qed.

End Classifier.

Lemma determine_seniority_level_precedence_witness :
  MatchService.determine_seniority_level Sample.world0 Scenarios.assistant 0%nat
  = (0%nat, Ok "Стажер").
Proof.
  apply (proj1 (determine_seniority_level_precedence Sample.world0
                  Scenarios.assistant 0%nat)).
  - exists "без опыта". split; [unfold MatchService.intern_words; set_solver|].
    exists "помощник финансового директора  ", " excel".
    vm_compute; reflexivity.
  - exists "директор". split; [unfold MatchService.head_words; set_solver|].
    exists "помощник финансового ", "а  без опыта excel".
    vm_compute; reflexivity.
Defined.

Lemma determine_seniority_level_defaults_to_mid_witness :
  MatchService.determine_seniority_level
    {| sdk_completions n structured messages :=
         match n with
         | 0%nat => SdkRaises "UNAUTHENTICATED"
         | _ => SdkText "Cannot tell."
         end;
       sdk_embeddings n text := inl "unavailable" |}
    (doc 10 "Financial controller") 0%nat = (1%nat, Ok "Средний")
  ∧ MatchService.determine_seniority_level
    {| sdk_completions n structured messages :=
         match n with
         | 0%nat => SdkRaises "UNAUTHENTICATED"
         | _ => SdkText "Cannot tell."
         end;
       sdk_embeddings n text := inl "unavailable" |}
    (doc 10 "Financial controller") 1%nat = (2%nat, Ok "Средний").
Proof.
  split.
  - apply (proj2 (determine_seniority_level_defaults_to_mid _
                    (doc 10 "Financial controller") 0%nat));
      vm_compute; done.
  - apply (proj2 (determine_seniority_level_defaults_to_mid _
                    (doc 10 "Financial controller") 1%nat));
      vm_compute; done.
Defined.

(** ** Embedding shard loader *)

Section Loader.
Import LoadEmbeddings.
Context `{NP : Numpy} `{FA : !Faiss}.

(** The array operations of the loop body keep the invariant of NumPy
    arrays. *)
Lemma take_rows_wf {A} (m : nat) (a : ndarray A) : wf a → wf (take_rows m a).
Proof.
  unfold wf, take_rows. destruct (shape a) as [|n trail] eqn:Hs; simpl.
  - by rewrite Hs.
  - intros Hwf. rewrite length_take, Hwf. nia.
Qed.

Lemma flatten_wf {A} (a : ndarray A) : wf (flatten a).
Proof. unfold wf, flatten, numel. simpl. lia. Qed.

Lemma reshape_row_wf {A} (a : ndarray A) : wf (reshape_row a).
Proof. unfold wf, reshape_row, numel. simpl. lia. Qed.

Lemma arange_wf n : wf (arange n).
Proof. unfold wf, arange. simpl. rewrite length_fmap, length_seq. lia. Qed.

Lemma take_rows_shape {A} (m : nat) (a : ndarray A) n trail :
  shape a = n :: trail →
  shape (take_rows m a) = Nat.min m n :: trail
  ∧ data (take_rows m a) = take (Nat.min m n * product trail) (data a).
Proof. unfold take_rows. by intros ->. Qed.

(** What one pass of the loop body yields. *)
Lemma load_batch_Some f emb ids :
  load_batch f = Some (emb, ids) →
  ∃ e n all_ids trail,
    embeddings_load f = Some e
    ∧ batch_rows e = Some n
    ∧ batch_ids f e = Some all_ids
    ∧ trail ≠ []
    ∧ shape emb = Nat.min n (length all_ids) :: trail
    ∧ data emb = take (Nat.min n (length all_ids) * product trail) (data e)
    ∧ ids = take (Nat.min n (length all_ids)) all_ids.
Proof.
  unfold load_batch. intros H.
  destruct (embeddings_load f) as [e|] eqn:He; [|done]. simpl in H.
  destruct (match indices f with
            | IndicesAbsent => arange <$> len e
            | IndicesUnreadable => None
            | IndicesLoaded a => Some a
            end) as [ib|] eqn:Hib; [|done]. simpl in H.
  set (e' := if decide (ndim e = 1%nat) then reshape_row e else e) in *.
  set (ib' := if decide (ndim ib = 0%nat) then wrap_item ib else ib) in *.
  destruct (len e') as [n|] eqn:Hn; [|done]. simpl in H. cbv zeta in H.
  change (rows (flatten ib')) with (length (data ib')) in H.
  assert (∃ trail, shape e' = n :: trail ∧ trail ≠ []
                   ∧ batch_rows e = Some n ∧ data e' = data e)
    as (trail & Hshape & Htrail & Hrows & Hdata).
  { unfold e', batch_rows, len, ndim in *. case_decide as Hd.
    - simpl in Hn. simplify_eq. by eexists.
    - destruct (shape e) as [|n0 [|d tr]] eqn:Hs; simplify_eq/=.
      by eexists. }
  assert (batch_ids f e = Some (data ib')) as Hids.
  { unfold batch_ids, ib'. destruct (indices f) as [| |a]; simplify_eq/=.
    - destruct (len e) as [k|]; simplify_eq/=. done.
    - by case_decide. }
  destruct (take_rows_shape (Nat.min n (length (data ib'))) e' n trail Hshape)
    as [Hs1 Hd1].
  simplify_eq.
  exists e, n, (data ib'), trail.
  rewrite Hs1, Hd1, Hdata. unfold numel.
  replace (Nat.min (Nat.min n (length (data ib'))) n)
    with (Nat.min n (length (data ib'))) by lia.
  replace (Nat.min (Nat.min n (length (data ib'))) (length (data ib')) * 1)%nat
    with (Nat.min n (length (data ib'))) by lia.
  done.
Qed.

Lemma load_batch_rows f emb ids :
  load_batch f = Some (emb, ids) →
  rows emb = length ids ∧ (2 ≤ ndim emb)%nat.
Proof.
  intros H. apply load_batch_Some in H
    as (e & n & all_ids & trail & _ & _ & _ & Htrail & Hs & _ & ->).
  unfold rows, ndim. rewrite Hs, length_take. simpl.
  split; [lia|]. destruct trail; [done | simpl; lia].
Qed.

Lemma atleast_2d_id {A} (a : ndarray A) : (2 ≤ ndim a)%nat → atleast_2d a = a.
Proof.
  unfold atleast_2d, ndim. destruct (shape a) as [|? [|? ?]]; simpl; [lia..|done].
Qed.

Lemma vstack_Some {A} (arrays : list (ndarray A)) X :
  Forall (λ a, (2 ≤ ndim a)%nat) arrays →
  vstack arrays = Some X →
  len X = Some (sum_list (rows <$> arrays))
  ∧ data X = concat (data <$> arrays).
Proof.
  intros Hall. unfold vstack.
  assert (atleast_2d <$> arrays = arrays) as ->.
  { induction Hall as [|a l Ha _ IH]; [done|].
    csimpl. by rewrite IH, atleast_2d_id. }
  destruct arrays as [|a rest]; [done|].
  case_match; [|done]. intros; by simplify_eq.
Qed.

Lemma loaded_rows_total (loaded : list (ndarray F * list Z)) :
  Forall (λ b, rows b.1 = length b.2) loaded →
  sum_list (rows <$> loaded.*1) = length (concat loaded.*2).
Proof.
  induction 1 as [|[emb ids] l Hb _ IH]; [done|].
  csimpl in *. rewrite length_app, IH. lia.
Qed.

Lemma omap_load_batch_Forall (files : list batch_file) :
  Forall (λ b, rows b.1 = length b.2 ∧ (2 ≤ ndim b.1)%nat)
         (omap load_batch files).
Proof.
  apply Forall_forall. intros [emb ids] Hin.
  apply list_elem_of_omap in Hin as (f & _ & Hf). by apply load_batch_rows in Hf.
Qed.

(** The sort is by batch number, ascending, and keeps every batch. *)
Lemma insert_sorted_perm x l : insert_sorted x l ≡ₚ x :: l.
Proof.
  induction l as [|y l IH]; [done|]. simpl. case_decide; [done|].
  rewrite IH. apply Permutation_swap.
Qed.

Lemma sort_batches_perm l : sort_batches l ≡ₚ l.
Proof.
  induction l as [|x l IH]; [done|]. simpl.
  by rewrite insert_sorted_perm, IH.
Qed.

Lemma insert_sorted_sorted x l :
  Sorted (λ a b, a.1 ≤ b.1) l → Sorted (λ a b, a.1 ≤ b.1) (insert_sorted x l).
Proof.
  induction 1 as [|y l Hs IH Hhd]; simpl.
  - by repeat constructor.
  - case_decide.
    + constructor; [by constructor | by constructor].
    + constructor; [done|].
      destruct Hhd as [|z l' Hyz]; simpl.
      * constructor. lia.
      * case_decide; constructor; [lia | done].
Qed.

Lemma sort_batches_sorted l : Sorted (λ a b, a.1 ≤ b.1) (sort_batches l).
Proof.
  induction l as [|x l IH]; simpl; [constructor | by apply insert_sorted_sorted].
Qed.


End Loader.


(** * Further properties of the modelled code *)

(** ** Failures and call counts in the effect monad *)

Section MonadFailures.

Lemma bind_Raise_inv {A B} (m : M A) (f : A → M B) n n' e :
  (m ≫= f) n = (n', Raise e) →
  m n = (n', Raise e) ∨ ∃ a n1, m n = (n1, Ok a) ∧ f a n1 = (n', Raise e).
Proof.
  unfold mbind, M_bind. destruct (m n) as [n1 [a|e1]]; intros H.
  - right. eauto.
  - left. by simplify_eq.
Qed.

Lemma fmap_Raise_inv {A B} (f : A → B) (m : M A) n n' e :
  (f <$> m) n = (n', Raise e) → m n = (n', Raise e).
Proof.
  unfold fmap, M_fmap. destruct (m n) as [n1 [a|e1]]; intros; by simplify_eq.
Qed.


Lemma within_ret {A} (a : A) (P : A → Prop) : P a → within (mret a) 0 P.
Proof. intros Ha n n' r H. unfold mret, M_ret in H. simplify_eq. split; [lia|done]. Qed.

Lemma within_raise {A} (P : A → Prop) e :
  exc_cls e = RuntimeError → within (raise e) 0 P.
Proof. intros He n n' r H. unfold raise in H. simplify_eq. split; [lia|done]. Qed.

Lemma within_lift {A} (a : A) (P : A → Prop) : P a → within (lift (Ok a)) 0 P.
Proof. intros Ha n n' r H. unfold lift in H. simplify_eq. split; [lia|done]. Qed.

Lemma within_weaken {A} (m : M A) c c' (P Q : A → Prop) :
  (c ≤ c')%nat → (∀ a, P a → Q a) → within m c P → within m c' Q.
Proof.
  intros Hc HPQ Hm n n' r H. apply Hm in H as [? Hr]. split; [lia|].
  destruct r; [by apply HPQ | done].
Qed.

(** Sequencing adds the budgets; the continuation may rest on what the
    first computation returned. *)
Lemma within_bind {A B} (m : M A) (f : A → M B) c1 c2
    (P : A → Prop) (Q : B → Prop) :
  within m c1 P → (∀ a, P a → within (f a) c2 Q) →
  within (m ≫= f) (c1 + c2) Q.
Proof.
  intros Hm Hf n n' r H. unfold mbind, M_bind in H.
  destruct (m n) as [n1 [a|e]] eqn:E.
  - destruct (Hm _ _ _ E) as [? Ha]. destruct (Hf a Ha _ _ _ H) as [? Hr].
    split; [lia | done].
  - simplify_eq. destruct (Hm _ _ _ E) as [? He]. split; [lia | done].
Qed.

Lemma within_fmap {A B} (f : A → B) (m : M A) c (P : A → Prop) (Q : B → Prop) :
  within m c P → (∀ a, P a → Q (f a)) → within (f <$> m) c Q.
Proof.
  intros Hm HPQ n n' r H. unfold fmap, M_fmap in H.
  destruct (m n) as [n1 [a|e]] eqn:E; simplify_eq;
    destruct (Hm _ _ _ E) as [? Hr]; (split; [lia|]); [by apply HPQ | done].
Qed.


Lemma within_mapM {A B} (f : A → M B) (l : list A) c (Q : B → Prop) :
  (∀ x, x ∈ l → within (f x) c Q) →
  within (mapM f l) (length l * c) (Forall Q).
Proof.
  induction l as [|x l IH]; intros Hf; simpl.
  - by apply within_ret.
  - eapply within_weaken;
      [| |eapply (within_bind _ _ c (length l * c + 0) Q (Forall Q))].
    + lia.
    + intros a Ha. exact Ha.
    + apply Hf. by left.
    + intros y Hy. eapply (within_bind _ _ _ _ (Forall Q)).
      * apply IH. intros z Hz. apply Hf. by right.
      * intros k Hk. apply within_ret. by constructor.
Qed.

End MonadFailures.

Lemma Forall_of_sublist {A} (P : A → Prop) (l1 l2 : list A) :
  l1 `sublist_of` l2 → Forall P l2 → Forall P l1.
Proof.
  rewrite !Forall_forall. intros Hs H x Hx. apply H. by eapply elem_of_sublist.
Qed.

(** ** Failures and cost of the match pipeline *)

Section PipelineBehaviour.
Import MatchService.
Context `{SO : StrOps} `{JL : JsonLib} `{PR : Prompts}.
Context `{NP : Numpy} `{FA : !Faiss}.
Context (w : world) (g : LoadEmbeddings.globals).


(** What [stage1_select] does, by the outcome of formatting the prompt,
    of the call to the model and of parsing its answer. *)
Lemma stage1_select_run system_prompt context_text limit n :
  stage1_select w system_prompt context_text limit n =
  match str_format system_prompt limit with
  | None => (n, Ok [])
  | Some prompt =>
      match sdk_completions w n true
              [Message "system" prompt; Message "user" context_text] with
      | SdkRaises msg =>
          (S n, Raise (Exc RuntimeError
                         ("YandexGPT API error: "
                          +:+ ("YandexGPT API error: " +:+ msg))))
      | outcome =>
          let raw := default "" (answer_of outcome) in
          if truthy raw then
            match json_loads raw with
            | Some data =>
                (S n, Ok (match selected_of data with
                          | Some selected => slice_to selected limit
                          | None => []
                          end))
            | None =>
                if is_RuntimeError (json_error raw)
                then (S n, Raise (Exc RuntimeError
                                    ("YandexGPT API error: "
                                     +:+ exc_msg (json_error raw))))
                else (S n, Ok [])
            end
          else (S n, Ok [])
      end
  end.
Proof.
  unfold stage1_select, try_except, mbind, M_bind, lift,
    run_structured_completion, sdk_run, mret, M_ret, raise.
  destruct (str_format system_prompt limit) as [prompt|]; [|done].
  destruct (sdk_completions w n true _) as [msg| |raw]; simpl; [done..|].
  destruct (truthy raw); simpl; [|done].
  destruct (json_loads raw) as [data|]; simpl.
  - by destruct (selected_of data).
  - by destruct (is_RuntimeError (json_error raw)).
Qed.

Lemma stage1_select_within system_prompt context_text limit :
  within (stage1_select w system_prompt context_text limit) 1
         (λ ids, ∃ selected, ids = slice_to selected limit).
Proof.
  assert (∃ selected : list Z, [] = slice_to selected limit) as Hnil
    by (exists []; by rewrite slice_to_nil).
  intros n n' r H. rewrite stage1_select_run in H.
  destruct (str_format system_prompt limit) as [prompt|];
    [|simplify_eq; split; [(clear; lia) | done]].
  destruct (sdk_completions w n true _) as [msg| |raw];
    cbv beta iota zeta delta [answer_of default] in H.
  - simplify_eq. split; [(clear; lia) | done].
  - simpl in H. simplify_eq. split; [(clear; lia) | done].
  - simpl in H.
    destruct (truthy raw); [|simplify_eq; split; [(clear; lia) | done]].
    destruct (json_loads raw) as [data|].
    + simplify_eq. split; [(clear; lia)|].
      destruct (selected_of data) as [selected|]; [by exists selected | done].
    + destruct (is_RuntimeError (json_error raw)); simplify_eq;
        (split; [(clear; lia) | done]).
Qed.

Lemma preprocess_resume_within resume :
  within (preprocess_resume w resume) 1 (λ _, True).
Proof.
  intros n n' r H.
  unfold preprocess_resume, try_except, fmap, M_fmap, mbind, M_bind,
    run_text_completion, sdk_run, mret, M_ret, raise in H.
  destruct (sdk_completions w n false _); simpl in H; simplify_eq;
    (split; [lia | done]).
Qed.

Lemma embed_query_within text :
  within (embed_query w text) 1 (λ _, True).
Proof.
  intros n n' r H.
  unfold embed_query, rewrap, try_except, embed_text, raise in H.
  destruct (sdk_embeddings w n text); simpl in H; simplify_eq;
    (split; [lia | done]).
Qed.

Lemma faiss_search_within q_vec k :
  within (faiss_search g q_vec k) 0
         (λ top, top ≠ [] ∧ LoadEmbeddings.search_top_k g q_vec k = Ok top).
Proof.
  intros n n' r H.
  unfold faiss_search, try_except, mbind, M_bind, lift, raise, mret, M_ret in H.
  destruct (LoadEmbeddings.search_top_k g q_vec k) as [[|i l]|e];
    repeat case_match; simplify_eq; (split; [lia | done]).
Qed.

Lemma determine_seniority_level_within vacancy :
  within (determine_seniority_level w vacancy) 1 (λ level, level ∈ valid_levels).
Proof.
  intros n n' r H. unfold determine_seniority_level in H.
  assert (∀ l : string, l ∈ valid_levels →
            mret (M := M) l n = (n', r) →
            (n ≤ n' ≤ n + 1)%nat
            ∧ match r with
              | Ok a => a ∈ valid_levels
              | Raise e => exc_cls e = RuntimeError
              end) as Hret.
  { intros l Hl Hm. unfold mret, M_ret in Hm. simplify_eq. split; [lia|done]. }
  destruct (any_in intern_words _);
    [eapply Hret; [|exact H]; unfold valid_levels; set_solver|].
  destruct (any_in head_words _);
    [eapply Hret; [|exact H]; unfold valid_levels; set_solver|].
  destruct (any_in expert_words _);
    [eapply Hret; [|exact H]; unfold valid_levels; set_solver|].
  destruct (any_in advanced_words _);
    [eapply Hret; [|exact H]; unfold valid_levels; set_solver|].
  destruct (any_in mid_words _);
    [eapply Hret; [|exact H]; unfold valid_levels; set_solver|].
  destruct (any_in entry_words _);
    [eapply Hret; [|exact H]; unfold valid_levels; set_solver|].
  unfold try_except, fmap, M_fmap, mbind, M_bind, run_text_completion,
    sdk_run, mret, M_ret in H.
  destruct (sdk_completions w n false _) as [msg| |s];
    cbv beta iota in H; simplify_eq; (split; [lia|]).
  - unfold valid_levels; set_solver.
  - apply find_valid_level.
  - apply find_valid_level.
Qed.

Lemma to_matched_within d :
  is_Some (idx d) →
  within (to_matched w d) 1 (λ mv, idx d = Some (mv_idx mv)).
Proof.
  intros [i Hi]. unfold to_matched.
  eapply within_weaken; [| |eapply (within_bind _ _ 1 0)].
  - lia.
  - intros mv Hmv. exact Hmv.
  - apply determine_seniority_level_within.
  - intros level _. unfold require_idx. rewrite Hi.
    intros n n' r H. unfold mbind, M_bind, lift, mret, M_ret in H.
    simplify_eq. split; [lia | done].
Qed.

Lemma item_lines_Ok (ordered : list vacancy) :
  Forall (λ d, is_Some (idx d)) ordered →
  ∃ items,
    mapM (λ d, i ← require_idx d;
               Ok (pretty i +:+ ": " +:+ render (get_or (title d) "")))
         ordered = Ok items.
Proof.
  induction 1 as [|d l [i Hi] _ [items IH]]; [by eexists|].
  simpl. replace (require_idx d) with (Ok (A := Z) i)
    by (unfold require_idx; by rewrite Hi).
  rewrite IH. by eexists.
Qed.

Lemma match_vacancies_locals_within request repo :
  valid_request request →
  within (match_vacancies_locals w g request repo)
         (4 + Z.to_nat (k_stage2 request)) (λ _, True).
Proof.
  intros (_ & [Hk1 _] & [Hk2 _]). unfold match_vacancies_locals.
  eapply within_weaken; [| |eapply (within_bind _ _ 1 (3 + Z.to_nat (k_stage2 request)))].
  { lia. } { done. } { apply preprocess_resume_within. }
  intros aug_text _.
  eapply within_weaken; [| |eapply (within_bind _ _ 1 (2 + Z.to_nat (k_stage2 request)))].
  { lia. } { done. } { apply embed_query_within. }
  intros q_vec _.
  eapply within_weaken; [| |eapply (within_bind _ _ 0 (2 + Z.to_nat (k_stage2 request)))].
  { lia. } { done. } { apply faiss_search_within. }
  intros top _.
  pose proof (fetched_have_idx repo top) as Hidx.
  destruct (fetch_vacancies_in_order repo top) as [|d0 ordered] eqn:Ho.
  { eapply within_weaken; [| |by apply (within_ret _ (λ _, True))]; [lia | done]. }
  set (cands := d0 :: ordered) in *.
  destruct (item_lines_Ok cands Hidx) as [items ->].
  eapply within_weaken; [| |eapply (within_bind _ _ 0 (2 + Z.to_nat (k_stage2 request)))].
  { lia. } { done. } { by apply (within_lift _ (λ _, True)). }
  intros items0 _.
  eapply within_weaken; [| |eapply (within_bind _ _ 1 (1 + Z.to_nat (k_stage2 request)))].
  { lia. } { done. }
  { eapply (within_fmap _ _ _ _ (λ _, True)); [apply stage1_select_within | done]. }
  intros S1 _.
  rewrite (narrow_total S1 cands _ Hidx).
  eapply within_weaken; [| |eapply (within_bind _ _ 0 (1 + Z.to_nat (k_stage2 request)))].
  { lia. } { done. }
  { apply (within_lift _ (λ stage2, Forall (λ d, is_Some (idx d)) stage2)).
    eapply Forall_of_sublist; [|exact Hidx].
    apply or_list_sublist; [|apply slice_to_sublist].
    etrans; [apply slice_to_sublist | apply sublist_filter]. }
  intros stage2 Hidx2.
  eapply within_weaken; [| |eapply (within_bind _ _ 1 (Z.to_nat (k_stage2 request)))].
  { lia. } { done. }
  { eapply (within_fmap _ _ _ _ (λ _, True)); [apply stage1_select_within | done]. }
  intros S2 _.
  pose proof (narrow_total S2 stage2 (k_stage2 request) Hidx2) as Hn.
  rewrite Hn.
  eapply within_weaken; [| |eapply (within_bind _ _ 0 (Z.to_nat (k_stage2 request)))].
  { lia. } { done. }
  { apply (within_lift _ (λ final, Forall (λ d, is_Some (idx d)) final
                                   ∧ (length final ≤ Z.to_nat (k_stage2 request))%nat)).
    split.
    - eapply Forall_of_sublist; [|exact Hidx2]. by eapply narrow_sublist.
    - apply narrow_bounded in Hn; lia. }
  intros final [Hidxf Hlen].
  eapply within_weaken; [| |eapply (within_bind _ _ (length final * 1) 0)].
  { lia. } { done. }
  { apply (within_mapM _ _ _ (λ _, True)). intros d Hd.
    eapply within_weaken; [reflexivity| |apply to_matched_within]; [done|].
    rewrite Forall_forall in Hidxf. by apply Hidxf. }
  intros result _. by apply (within_ret _ (λ _, True)).
Qed.

End PipelineBehaviour.

Section PipelineGuarantees.
Import MatchService.
Context `{SO : StrOps} `{JL : JsonLib} `{PR : Prompts}.
Context `{NP : Numpy} `{FA : !Faiss}.
Context (w : world) (g : LoadEmbeddings.globals).

Lemma match_vacancies_within request repo :
  valid_request request →
  within (match_vacancies w g request repo)
         (4 + Z.to_nat (k_stage2 request)) (λ _, True).
Proof.
  intros Hv. unfold match_vacancies.
  eapply within_fmap; [by apply match_vacancies_locals_within | done].
Qed.


Lemma match_vacancies_raises_RuntimeError request repo n n' e :
  valid_request request →
  match_vacancies w g request repo n = (n', Raise e) →
  exc_cls e = RuntimeError.
Proof.
  intros Hv H. by destruct (match_vacancies_within request repo Hv _ _ _ H).
Qed.

(** A match request makes at most [4 + k_stage2] calls to external
    services, whether it returns or raises: one each for preprocessing,
    embedding and the two narrowing stages, and at most one per finalist
    for the seniority label. *)
Theorem match_vacancies_call_budget request repo n n' r :
  valid_request request →
  match_vacancies w g request repo n = (n', r) →
  (n ≤ n' ≤ n + 4 + Z.to_nat (k_stage2 request))%nat.
Proof.
  intros Hv H. destruct (match_vacancies_within request repo Hv _ _ _ H). lia.
Qed.

End PipelineGuarantees.

Section Substrings.

Lemma contains_cons needle c haystack :
  contains needle haystack = true → contains needle (String c haystack) = true.
Proof. intros H. simpl. rewrite H. apply orb_true_r. Qed.

Lemma contains_app_r needle a b :
  contains needle b = true → contains needle (a +:+ b) = true.
Proof.
  intros H. induction a as [|c a IH]; [done|].
  change (String c a +:+ b) with (String c (a +:+ b)). by apply contains_cons.
Qed.

End Substrings.

Section Credentials.
Import MatchService.
Context `{SO : StrOps} `{JL : JsonLib} `{PR : Prompts}.
Context `{NP : Numpy} `{FA : !Faiss}.
Context (w : world) (g : LoadEmbeddings.globals).

Lemma preprocess_resume_run resume n :
  preprocess_resume w resume n =
  match sdk_completions w n false
          [Message "system" MATCH_PREPROCESS_SYSTEM_PROMPT;
           Message "user" resume] with
  | SdkRaises msg =>
      (S n, Raise (Exc RuntimeError
                     ("YandexGPT API error: "
                      +:+ ("YandexGPT API error: " +:+ msg))))
  | outcome =>
      let result := str_strip (default "" (answer_of outcome)) in
      (S n, Ok (if truthy result then result else resume))
  end.
Proof.
  unfold preprocess_resume, try_except, fmap, M_fmap, mbind, M_bind,
    run_text_completion, sdk_run, mret, M_ret, raise.
  by destruct (sdk_completions w n false _).
Qed.

(** When the first call to the model is refused with a message that
    holds [UNAUTHENTICATED], the endpoint answers with status 401 after
    that single call: nothing is embedded, searched or fetched. *)
Theorem match_endpoint_unauthenticated request repo n msg :
  sdk_completions w n false
    [Message "system" MATCH_PREPROCESS_SYSTEM_PROMPT;
     Message "user" (resume request)] = SdkRaises msg →
  contains "UNAUTHENTICATED" msg = true →
  ∃ detail,
    Router.match_vacancies w g request repo n
      = (S n, inl (Router.mkHTTPException 401 detail)).
Proof.
  intros Hsdk Hmsg.
  unfold Router.match_vacancies, Router.respond, match_vacancies,
    match_vacancies_locals, fmap, M_fmap, mbind, M_bind.
  rewrite preprocess_resume_run, Hsdk. simpl.
  unfold Router.is_key_error.
  rewrite (contains_app_r "UNAUTHENTICATED" _ _
             (contains_app_r "UNAUTHENTICATED" _ _ Hmsg)).
  rewrite orb_true_r. simpl. by eexists.
Qed.


End Credentials.

(** ** Failures of the store *)

Section StoreFailures.
Import MatchService.
Context `{SO : StrOps} `{JL : JsonLib} `{PR : Prompts}.
Context `{NP : Numpy} `{FA : !Faiss}.
Context (w : world) (g : LoadEmbeddings.globals).

Lemma embed_query_run text n :
  embed_query w text n =
  match sdk_embeddings w n text with
  | inl msg =>
      (S n, Raise (Exc RuntimeError
                     ("YandexGPT Embeddings API error: "
                      +:+ ("YandexGPT Embeddings API error: " +:+ msg))))
  | inr vec => (S n, Ok (astype_float32 <$> vec))
  end.
Proof.
  unfold embed_query, rewrap, try_except, embed_text, raise.
  by destruct (sdk_embeddings w n text).
Qed.

(** A run on a store whose query raises: the stages before the query
    decide. *)
Lemma failing_store_run request e n :
  Awaited.match_vacancies w g request (Failing e) n =
  match preprocess_resume w (resume request) n with
  | (n1, Raise e1) => (n1, Raise e1)
  | (n1, Ok aug_text) =>
      match embed_query w aug_text n1 with
      | (n2, Raise e2) => (n2, Raise e2)
      | (n2, Ok q_vec) =>
          match faiss_search g q_vec (k_faiss request) n2 with
          | (n3, Raise e3) => (n3, Raise e3)
          | (n3, Ok _) => (n3, Raise e)
          end
      end
  end.
Proof.
  unfold Awaited.match_vacancies, mbind, M_bind, raise.
  destruct (preprocess_resume w (resume request) n) as [n1 [aug|e1]]; [|done].
  destruct (embed_query w aug n1) as [n2 [q|e2]]; [|done].
  by destruct (faiss_search g q (k_faiss request) n2) as [n3 [top|e3]].
Qed.

Lemma failing_store_raises request e n n' e' :
  Awaited.match_vacancies w g request (Failing e) n = (n', Raise e') →
  exc_cls e' = RuntimeError ∨ (e' = e ∧ n' = (n + 2)%nat).
Proof.
  rewrite failing_store_run. intros H.
  destruct (preprocess_resume w (resume request) n) as [n1 [aug|e1]] eqn:E1.
  - pose proof (preprocess_resume_within w (resume request) _ _ _ E1) as [Hn1 _].
    rewrite preprocess_resume_run in E1.
    assert (n1 = S n) as ->
      by (destruct (sdk_completions w n false _); by simplify_eq/=).
    destruct (embed_query w aug (S n)) as [n2 [q|e2]] eqn:E2.
    + rewrite embed_query_run in E2.
      assert (n2 = S (S n)) as ->
        by (destruct (sdk_embeddings w (S n) aug); by simplify_eq/=).
      destruct (faiss_search g q (k_faiss request) (S (S n)))
        as [n3 [top|e3]] eqn:E3.
      * pose proof (faiss_search_within g q (k_faiss request) _ _ _ E3)
          as [Hn3 _].
        simplify_eq. right. split; [done | lia].
      * pose proof (faiss_search_within g q (k_faiss request) _ _ _ E3)
          as [_ He3].
        simplify_eq. by left.
    + pose proof (embed_query_within w aug _ _ _ E2) as [_ He2].
      simplify_eq. by left.
  - pose proof (preprocess_resume_within w (resume request) _ _ _ E1) as [_ He1].
    simplify_eq. by left.
Qed.

(** For a request within the bounds of the request model, an exception
    that leaves the service is a [RuntimeError] (a failure of the model,
    of the embeddings service or of the index) or the exception the store
    query raised, unchanged; the store is asked only after preprocessing
    and embedding, two calls, and a successful vector search. *)
Theorem match_vacancies_raises_RuntimeError_or_store_error
    request (s : store) n n' e :
  valid_request request →
  Awaited.match_vacancies w g request s n = (n', Raise e) →
  exc_cls e = RuntimeError ∨ (s = Failing e ∧ n' = (n + 2)%nat).
Proof.
  intros Hv H. destruct s as [repo|e0].
  - left. by eapply (match_vacancies_raises_RuntimeError w g request repo).
  - apply failing_store_raises in H as [?|[-> ->]]; [by left | by right].
Qed.

(** The endpoint answers a failed match request from the [RuntimeError]
    branch, with status 401 when the message points at the API key and
    with status 500 otherwise, for every failure but one: when the store
    query raised an exception that is not a [RuntimeError], the catch-all
    branch answers with status 500 and [Failed to match vacancies]. *)
Theorem match_endpoint_statuses request (s : store) n n' ex :
  valid_request request →
  Awaited.endpoint w g request s n = (n', inl ex) →
  (∃ e,
     Awaited.match_vacancies w g request s n = (n', Raise e)
     ∧ is_RuntimeError e = true
     ∧ ex = if Router.is_key_error (exc_msg e)
            then Router.mkHTTPException 401
                   ("YandexGPT API key error: " +:+ exc_msg e
                    +:+ ". Please check YANDEX_API_KEY in Cloud Run environment variables.")
            else Router.mkHTTPException 500
                   ("YandexGPT API error: " +:+ exc_msg e))
  ∨ (∃ e,
       s = Failing e
       ∧ is_RuntimeError e = false
       ∧ n' = (n + 2)%nat
       ∧ ex = Router.mkHTTPException 500
                ("Failed to match vacancies: " +:+ exc_msg e)).
Proof.
  intros Hv H. unfold Awaited.endpoint, Router.respond in H.
  destruct (Awaited.match_vacancies w g request s n) as [n1 [resp|e]] eqn:E;
    [by simplify_eq|].
  injection H as <- <-.
  destruct (is_RuntimeError e) eqn:Hr.
  - left. by exists e.
  - right. exists e.
    assert (s = Failing e ∧ n1 = (n + 2)%nat) as [-> ->]; [|done].
    destruct s as [repo|e0].
    + pose proof (match_vacancies_raises_RuntimeError w g request repo _ _ _ Hv E)
        as Hcls.
      unfold is_RuntimeError in Hr. by rewrite Hcls in Hr.
    + apply failing_store_raises in E as [Hcls|[-> ->]]; [|done].
      unfold is_RuntimeError in Hr. by rewrite Hcls in Hr.
Qed.

End StoreFailures.

Lemma match_vacancies_raises_RuntimeError_or_store_error_witness :
  exc_cls (Exc PyMongoError "connection refused") = RuntimeError
  ∨ (Failing (Exc PyMongoError "connection refused")
     = Failing (Exc PyMongoError "connection refused")
     ∧ 2%nat = (0 + 2)%nat).
Proof.
  apply (match_vacancies_raises_RuntimeError_or_store_error Sample.world0
           Sample.globals0 Sample.request0
           (Failing (Exc PyMongoError "connection refused")) 0%nat 2%nat
           (Exc PyMongoError "connection refused"));
    [unfold valid_request; simpl; lia | vm_compute; reflexivity].
Defined.

Lemma match_endpoint_statuses_witness :
  ∃ ex,
    Awaited.endpoint Sample.world0 Sample.globals0 Sample.request0
      (Failing (Exc PyMongoError "connection refused")) 0%nat = (2%nat, inl ex)
    ∧ ex = Router.mkHTTPException 500
             "Failed to match vacancies: connection refused".
Proof.
  destruct (Awaited.endpoint Sample.world0 Sample.globals0 Sample.request0
              (Failing (Exc PyMongoError "connection refused")) 0%nat)
    as [n' [ex|resp]] eqn:Hrun; [|vm_compute in Hrun; discriminate].
  assert (n' = 2%nat) as -> by (vm_compute in Hrun; by injection Hrun).
  exists ex. split; [reflexivity|].
  destruct (match_endpoint_statuses Sample.world0 Sample.globals0
              Sample.request0 (Failing (Exc PyMongoError "connection refused"))
              0%nat 2%nat ex)
    as [(e & He & Hr & ->) | (e & Hs & _ & _ & ->)];
    [unfold valid_request; simpl; lia | exact Hrun | |].
  - vm_compute in He. injection He as <-. discriminate Hr.
  - injection Hs as <-. reflexivity.
Defined.

Lemma match_vacancies_call_budget_witness :
  (0 ≤ fst (MatchService.match_vacancies Sample.world0 Sample.globals0
              Sample.request0 sample_repo 0%nat) ≤ 0 + 4 + Z.to_nat 2)%nat.
Proof.
  destruct (MatchService.match_vacancies Sample.world0 Sample.globals0
              Sample.request0 sample_repo 0%nat) as [n' r] eqn:Hrun.
  apply (match_vacancies_call_budget Sample.world0 Sample.globals0
           Sample.request0 sample_repo 0%nat n' r);
    [unfold valid_request; simpl; lia | exact Hrun].
Defined.

Lemma match_endpoint_unauthenticated_witness :
  ∃ detail,
    Router.match_vacancies Scenarios.world_unauthenticated Sample.globals0
      Sample.request0 sample_repo 0%nat
    = (1%nat, inl (Router.mkHTTPException 401 detail)).
Proof.
  apply (match_endpoint_unauthenticated Scenarios.world_unauthenticated
           Sample.globals0 Sample.request0 sample_repo 0%nat
           "UNAUTHENTICATED: Unknown api key");
    vm_compute; reflexivity.
Defined.

(** ** The selector and the classifier, by what the model answers *)

Section ModelAnswers.
Import MatchService.
Context `{SO : StrOps} `{JL : JsonLib} `{PR : Prompts}.
Context `{NP : Numpy} (w : world).

(** The selector raises in two cases only, both after the one call to
    the model: the call failed, or the answer is a text on which
    [json.loads] raises an exception that [except RuntimeError] catches
    (a [RecursionError], on an answer nested too deep).  The exception is
    a [RuntimeError] that carries the message of the cause. *)
Theorem stage1_select_raises_exactly_when
    system_prompt context_text limit n n' e :
  stage1_select w system_prompt context_text limit n = (n', Raise e)
  ↔ ∃ prompt,
      str_format system_prompt limit = Some prompt
      ∧ n' = S n
      ∧ ((∃ msg,
            sdk_completions w n true
              [Message "system" prompt; Message "user" context_text]
            = SdkRaises msg
            ∧ e = Exc RuntimeError
                    ("YandexGPT API error: "
                     +:+ ("YandexGPT API error: " +:+ msg)))
         ∨ (∃ raw,
              sdk_completions w n true
                [Message "system" prompt; Message "user" context_text]
              = SdkText raw
              ∧ truthy raw = true
              ∧ json_loads raw = None
              ∧ is_RuntimeError (json_error raw) = true
              ∧ e = Exc RuntimeError
                      ("YandexGPT API error: " +:+ exc_msg (json_error raw)))).
Proof.
  rewrite stage1_select_run. split.
  - destruct (str_format system_prompt limit) as [prompt|]; [|done].
    destruct (sdk_completions w n true _) as [msg| |raw] eqn:E; simpl.
    + intros H. simplify_eq. exists prompt. repeat split. left. by exists msg.
    + done.
    + destruct (truthy raw) eqn:Et; [|done].
      destruct (json_loads raw) as [data|] eqn:Ej; [done|].
      destruct (is_RuntimeError (json_error raw)) eqn:Er; [|done].
      intros H. simplify_eq. exists prompt. repeat split. right.
      by exists raw.
  - intros (prompt & -> & -> & [(msg & -> & ->) | (raw & -> & Ht & Hj & Hr & ->)]).
    + done.
    + simpl. by rewrite Ht, Hj, Hr.
Qed.

(** An answer of the model that is empty, that [json.loads] rejects with
    an exception other than a [RuntimeError] (a [JSONDecodeError]), or
    that is JSON without a list under [selected] that can be iterated,
    makes the selector return the empty list: nothing is raised. *)
Theorem stage1_select_empty_on_malformed
    system_prompt context_text limit n prompt raw :
  str_format system_prompt limit = Some prompt →
  answer_of (sdk_completions w n true
               [Message "system" prompt; Message "user" context_text])
    = Some raw →
  truthy raw = false
  ∨ (json_loads raw = None ∧ is_RuntimeError (json_error raw) = false)
  ∨ (∃ data, json_loads raw = Some data ∧ selected_of data = None) →
  stage1_select w system_prompt context_text limit n = (S n, Ok []).
Proof.
  intros Hf Ha Hbad. rewrite stage1_select_run, Hf.
  destruct (sdk_completions w n true _) as [msg| |s]; simplify_eq/=; [done|].
  destruct (truthy raw); [|done].
  destruct Hbad as [?|[[-> ->]|(data & -> & ->)]]; done.
Qed.

(** From an answer that is a JSON object with a list under [selected],
    the selector returns the integers of the list in their order, cut at
    [limit]: strings, floats and nulls are dropped, and a boolean counts
    as 1 or 0. *)
Theorem stage1_select_keeps_integers
    system_prompt context_text limit n prompt raw members items :
  str_format system_prompt limit = Some prompt →
  sdk_completions w n true
    [Message "system" prompt; Message "user" context_text] = SdkText raw →
  truthy raw = true →
  json_loads raw = Some (JObject members) →
  dict_get "selected" members = Some (JArray items) →
  stage1_select w system_prompt context_text limit n
    = (S n, Ok (slice_to (omap as_int items) limit)).
Proof.
  intros Hf Hs Ht Hj Hd. rewrite stage1_select_run, Hf, Hs. simpl.
  rewrite Ht, Hj. simpl. by rewrite Hd.
Qed.

(** Preprocessing makes one call to the model.  When the call returns,
    the result is the stripped answer if that is not empty and the resume
    itself otherwise; when the call fails, a [RuntimeError] with the
    message of the SDK is raised.  A resume that is not empty is never
    replaced by an empty text. *)
Theorem preprocess_resume_keeps_resume resume n :
  (∀ answer,
     answer_of (sdk_completions w n false
                  [Message "system" MATCH_PREPROCESS_SYSTEM_PROMPT;
                   Message "user" resume]) = Some answer →
     preprocess_resume w resume n
     = (S n, Ok (if truthy (str_strip answer) then str_strip answer
                 else resume)))
  ∧ (∀ msg,
       sdk_completions w n false
         [Message "system" MATCH_PREPROCESS_SYSTEM_PROMPT;
          Message "user" resume] = SdkRaises msg →
       preprocess_resume w resume n
       = (S n, Raise (Exc RuntimeError
                        ("YandexGPT API error: "
                         +:+ ("YandexGPT API error: " +:+ msg)))))
  ∧ (truthy resume = true →
     ∀ n' out, preprocess_resume w resume n = (n', Ok out) →
               truthy out = true).
Proof.
  rewrite preprocess_resume_run. repeat split.
  - intros answer Ha.
    destruct (sdk_completions w n false _) as [msg| |s]; by simplify_eq/=.
  - by intros msg ->.
  - intros Hr n' out H.
    destruct (sdk_completions w n false _) as [msg| |s]; simpl in H;
      simplify_eq.
    + by destruct (truthy (str_strip "")) eqn:Et.
    + by destruct (truthy (str_strip s)) eqn:Et.
Qed.

(** When no word of the six keyword lists occurs in the combined text of
    the candidate (title, description, experience and skills), the label
    is the first of the six labels, in the order Стажер, Начальный,
    Средний, Продвинутый, Эксперт, Руководитель, that occurs in the answer
    of the model (both in lower case). *)
Theorem determine_seniority_level_first_named_level
    (vacancy : vacancy) n answer (earlier later : list string) level :
  Forall (λ words, ¬ has_keyword words (combined_text vacancy))
         [intern_words; head_words; expert_words; advanced_words;
          mid_words; entry_words] →
  answer_of (sdk_completions w n false
               [Message "system" (seniority_prompt vacancy)]) = Some answer →
  valid_levels = (earlier ++ level :: later)%list →
  Forall (λ l, ¬ occurs (str_lower l) (str_lower (str_strip answer))) earlier →
  occurs (str_lower level) (str_lower (str_strip answer)) →
  determine_seniority_level w vacancy n = (S n, Ok level).
Proof.
  intros Hk Ha Hsplit Hearlier Hlevel.
  rewrite !Forall_cons in Hk. destruct Hk as (H1 & H2 & H3 & H4 & H5 & H6 & _).
  apply any_in_no_keyword in H1, H2, H3, H4, H5, H6.
  apply contains_occurs in Hlevel.
  unfold determine_seniority_level. rewrite seniority_text_combined.
  rewrite H1, H2, H3, H4, H5, H6.
  assert (List.find (λ l, contains (str_lower l) (str_lower (str_strip answer)))
            valid_levels = Some level) as Hfind.
  { rewrite Hsplit. clear Hsplit.
    induction Hearlier as [|l ls Hl _ IH]; simpl.
    - by rewrite Hlevel.
    - apply contains_not_occurs in Hl. by rewrite Hl. }
  unfold try_except, fmap, M_fmap, mbind, M_bind, run_text_completion, sdk_run.
  destruct (sdk_completions w n false _) as [msg| |s]; simplify_eq/=;
    cbv beta iota; by rewrite Hfind.
Qed.

End ModelAnswers.

Lemma stage1_select_raises_exactly_when_witness :
  MatchService.stage1_select Scenarios.world_nested "pick {limit}" "candidates"
    2 0%nat
  = (1%nat,
     Raise (Exc RuntimeError
              ("YandexGPT API error: "
               +:+ exc_msg (json_error Scenarios.nested_answer)))).
Proof.
  apply (proj2 (stage1_select_raises_exactly_when Scenarios.world_nested
                  "pick {limit}" "candidates" 2 0%nat 1%nat _)).
  exists "pick 2". split; [vm_compute; reflexivity|]. split; [reflexivity|].
  right. exists Scenarios.nested_answer.
  repeat split; vm_compute; reflexivity.
Defined.

Lemma stage1_select_empty_on_malformed_witness :
  MatchService.stage1_select Sample.world0 "pick {limit}" "candidates" 2 0%nat
  = (1%nat, Ok []).
Proof.
  apply (stage1_select_empty_on_malformed Sample.world0 "pick {limit}"
           "candidates" 2 0%nat "pick 2" "financial analyst, treasury, reporting").
  - vm_compute; reflexivity.
  - vm_compute; reflexivity.
  - right. left. split; vm_compute; reflexivity.
Defined.

Lemma stage1_select_keeps_integers_witness :
  MatchService.stage1_select Scenarios.world_mixed "pick {limit}" "candidates"
    3 0%nat
  = (1%nat, Ok [10; 1; 13]).
Proof.
  erewrite (stage1_select_keeps_integers Scenarios.world_mixed "pick {limit}"
              "candidates" 3 0%nat);
    [idtac | vm_compute; reflexivity ..].
  vm_compute; reflexivity.
Defined.

Lemma preprocess_resume_keeps_resume_witness :
  MatchService.preprocess_resume Scenarios.world_padded "Financial analyst" 0%nat
  = (1%nat, Ok "treasury, IFRS reporting").
Proof.
  rewrite (proj1 (preprocess_resume_keeps_resume Scenarios.world_padded
                    "Financial analyst" 0%nat) "  treasury, IFRS reporting ");
    vm_compute; reflexivity.
Defined.

Lemma determine_seniority_level_first_named_level_witness :
  MatchService.determine_seniority_level Scenarios.world_two_levels
    (doc 10 "Financial controller") 0%nat
  = (1%nat, Ok "Средний").
Proof.
  apply (determine_seniority_level_first_named_level Scenarios.world_two_levels
           (doc 10 "Financial controller") 0%nat "Руководитель или Средний"
           ["Стажер"; "Начальный"]
           ["Продвинутый"; "Эксперт"; "Руководитель"] "Средний").
  - repeat constructor; apply any_in_no_keyword; vm_compute; reflexivity.
  - vm_compute; reflexivity.
  - reflexivity.
  - repeat constructor; apply contains_not_occurs; vm_compute; reflexivity.
  - exists "руководитель или ", "". vm_compute; reflexivity.
Defined.

(** ** Narrowing and fetching, once more *)

Section NarrowAgain.
Import MatchService.

Lemma filter_all {A} (P : A → Prop) `{!∀ x, Decision (P x)} (l : list A) :
  Forall P l → filter P l = l.
Proof.
  induction 1 as [|x l Hx _ IH]; [done|]. by rewrite filter_cons_True, IH.
Qed.

Lemma filter_none {A} (P : A → Prop) `{!∀ x, Decision (P x)} (l : list A) :
  Forall (λ x, ¬ P x) l → filter P l = [].
Proof.
  induction 1 as [|x l Hx _ IH]; [done|]. by rewrite filter_cons_False.
Qed.

Lemma filter_nil_none {A} (P : A → Prop) `{!∀ x, Decision (P x)} (l : list A) :
  filter P l = [] → Forall (λ x, ¬ P x) l.
Proof.
  intros Hnil. apply Forall_forall. intros x Hx HP.
  assert (x ∈ filter P l) as Hin by (by apply list_elem_of_filter).
  rewrite Hnil in Hin. by apply elem_of_nil in Hin.
Qed.

Lemma filter_filtered {A} (P : A → Prop) `{!∀ x, Decision (P x)} (l : list A) :
  Forall P (filter P l).
Proof. apply Forall_forall. intros x Hx. by apply list_elem_of_filter in Hx as [? _]. Qed.

(** Narrowing a stage output again, with the same selection and limit,
    changes nothing. *)
Theorem narrow_idempotent (selected : gset Z) candidates k out :
  0 ≤ k →
  narrow selected candidates k = Ok out →
  narrow selected out k = Ok out.
Proof.
  intros Hk H. pose proof (narrow_sublist _ _ _ _ H) as Hsub.
  apply narrow_Ok in H as [-> Hidx].
  rewrite narrow_total by (by eapply Forall_of_sublist).
  f_equal. rewrite !slice_to_nonneg in * by lia.
  set (P := λ d, selected_by selected d = true).
  set (m := Z.to_nat k).
  destruct (or_list_cases (take m (filter P candidates)) (take m candidates))
    as [[Hne ->] | [He ->]].
  - rewrite (filter_all P) by apply Forall_take, filter_filtered.
    rewrite take_idemp. by destruct (take m (filter P candidates)).
  - rewrite take_idemp.
    destruct m as [|m'].
    + by rewrite !take_0.
    + assert (filter P candidates = []) as Hnone
        by (by destruct (filter P candidates)).
      rewrite (filter_none P); [by rewrite take_nil|].
      apply Forall_take. by apply (filter_nil_none P).
Qed.

Lemma foldl_by_idx_last (docs : list vacancy) (m : gmap Z vacancy) i d :
  foldl (λ m d, match idx d with Some i => <[i:=d]> m | None => m end) m docs !! i
    = Some d →
  (m !! i = Some d ∧ Forall (λ d', idx d' ≠ Some i) docs)
  ∨ ∃ l1 l2, docs = (l1 ++ d :: l2)%list ∧ idx d = Some i
             ∧ Forall (λ d', idx d' ≠ Some i) l2.
Proof.
  revert m. induction docs as [|x docs IH]; intros m Hl; simpl in *.
  - left. by split.
  - apply IH in Hl as [[Hl Hall] | (l1 & l2 & -> & Hi & Hall)].
    + destruct (idx x) as [j|] eqn:Hx.
      * destruct (decide (j = i)) as [->|Hne].
        -- rewrite lookup_insert_eq in Hl. simplify_eq.
           right. by exists [], docs.
        -- rewrite lookup_insert_ne in Hl by done. left. split; [done|].
           constructor; [congruence | done].
      * left. split; [done|]. constructor; [congruence | done].
    + right. by exists (x :: l1), l2.
Qed.

Lemma filter_split {A} (P : A → Prop) `{!∀ x, Decision (P x)} (l : list A)
    l1 x l2 :
  filter P l = (l1 ++ x :: l2)%list →
  ∃ c1 c2, l = (c1 ++ x :: c2)%list ∧ filter P c2 = l2.
Proof.
  revert l1. induction l as [|y l IH]; intros l1 Hf.
  - by destruct l1.
  - rewrite filter_cons in Hf. destruct (decide (P y)) as [Hy|Hy].
    + destruct l1 as [|z l1]; simpl in Hf; injection Hf as <- Hf.
      * by exists [], l.
      * destruct (IH _ Hf) as (c1 & c2 & -> & Hc). by exists (y :: c1), c2.
    + destruct (IH _ Hf) as (c1 & c2 & -> & Hc). by exists (y :: c1), c2.
Qed.

(** When the store holds several documents with one idx, the fetcher
    returns the last of them in the order of the collection. *)
Theorem fetch_returns_last_document repo (top_idx : list Z) d :
  d ∈ fetch_vacancies_in_order repo top_idx →
  ∃ before after,
    coll repo = (before ++ d :: after)%list
    ∧ Forall (λ d', idx d' ≠ idx d) after.
Proof.
  intros Hd. unfold fetch_vacancies_in_order in Hd.
  apply list_elem_of_omap in Hd as (o & Ho & Hd). simpl in Hd. subst o.
  apply list_elem_of_fmap in Ho as (i & Hl & Hi).
  apply list_elem_of_filter in Hi as [_ Hi]. symmetry in Hl.
  apply foldl_by_idx_last in Hl as [[Hl _] | (l1 & l2 & Hdocs & Hidx & Hall)].
  { by rewrite lookup_empty in Hl. }
  unfold find_by_ids in Hdocs.
  apply filter_split in Hdocs as (c1 & c2 & Hcoll & Hc2).
  exists c1, c2. split; [done|].
  apply Forall_forall. intros d' Hd' Heq.
  assert (d' ∈ l2) as Hin.
  { rewrite <- Hc2. apply list_elem_of_filter. split; [|done].
    unfold idx_in. rewrite Heq, Hidx. by apply bool_decide_eq_true. }
  rewrite Forall_forall in Hall. apply (Hall d' Hin). congruence.
Qed.

(** Distinct ids give distinct records, at most one per id. *)
Theorem fetch_distinct_ids repo (top_idx : list Z) :
  NoDup top_idx →
  NoDup (omap idx (fetch_vacancies_in_order repo top_idx))
  ∧ NoDup (fetch_vacancies_in_order repo top_idx)
  ∧ (length (fetch_vacancies_in_order repo top_idx) ≤ length top_idx)%nat.
Proof.
  intros Hnd.
  assert (NoDup (omap idx (fetch_vacancies_in_order repo top_idx))) as Hids
    by (rewrite fetched_ids_omap; by apply NoDup_filter).
  pose proof (fetched_ids repo top_idx) as Hf.
  split; [done|]. split.
  - assert (NoDup (idx <$> fetch_vacancies_in_order repo top_idx)) as Hn.
    { rewrite Hf. apply NoDup_fmap; [apply _|]. by apply NoDup_filter. }
    by eapply NoDup_fmap_1.
  - apply (f_equal length) in Hf. rewrite !length_fmap in Hf. rewrite Hf.
    apply length_filter.
Qed.

End NarrowAgain.

Lemma narrow_idempotent_witness :
  MatchService.narrow (list_to_set [10; 99]) [doc 10 "Financial controller"] 2
  = Ok [doc 10 "Financial controller"].
Proof.
  apply (narrow_idempotent (list_to_set [10; 99]) Sample.candidates0 2);
    [lia | vm_compute; reflexivity].
Defined.

Lemma fetch_returns_last_document_witness :
  ∃ before after,
    coll Scenarios.repo_with_duplicate
      = (before ++ doc 10 "Chief accountant" :: after)%list
    ∧ Forall (λ d', idx d' ≠ idx (doc 10 "Chief accountant")) after.
Proof.
  apply (fetch_returns_last_document Scenarios.repo_with_duplicate [11; 10]).
  replace (MatchService.fetch_vacancies_in_order Scenarios.repo_with_duplicate [11; 10])
    with [doc 11 "Auditor"; doc 10 "Chief accountant"]
    by (vm_compute; reflexivity).
  right. left.
Defined.

Lemma fetch_distinct_ids_witness :
  NoDup (MatchService.fetch_vacancies_in_order sample_repo [10; 99; 7; 12])
  ∧ (length (MatchService.fetch_vacancies_in_order sample_repo [10; 99; 7; 12]%Z)
     ≤ 4)%nat.
Proof.
  apply (fetch_distinct_ids sample_repo [10; 99; 7; 12]).
  repeat constructor; set_solver.
Defined.

(** ** The index: what a search returns and what a build leaves behind *)

Section IndexLifecycle.
Import LoadEmbeddings.
Context `{NP : Numpy} `{FA : !Faiss}.




Lemma load_all_rows files X ids :
  _load_all_embeddings files = Ok (X, ids) → len X = Some (length ids).
Proof.
  intros H. unfold _load_all_embeddings in H.
  destruct (keyed files) as [ks|]; [|done].
  destruct ((sort_batches ks).*2) as [|f0 fs] eqn:Hsorted; [done|].
  rewrite <- Hsorted in *. clear Hsorted.
  pose proof (omap_load_batch_Forall (sort_batches ks).*2) as Hall.
  destruct ((omap load_batch (sort_batches ks).*2).*1) as [|a0 rest] eqn:Ha;
    [done|]. rewrite <- Ha in *. clear Ha.
  destruct (vstack _) as [X'|] eqn:Hv; [|done]. simplify_eq.
  apply vstack_Some in Hv as [Hlen Hdata].
  - rewrite Hlen. f_equal. apply loaded_rows_total.
    eapply Forall_impl; [exact Hall|]. by intros ? [? _].
  - apply Forall_fmap. eapply Forall_impl; [exact Hall|]. by intros ? [_ ?].
Qed.

Lemma build_faiss_cases (dir : option (list batch_file)) (g : globals) :
  (faiss_index (build_faiss dir g) = None ∧ vacancy_ids (build_faiss dir g) = [])
  ∨ (is_Some (faiss_index (build_faiss dir g))
     ∧ vacancy_ids (build_faiss dir g) ≠ []).
Proof.
  unfold build_faiss.
  destruct (FAISS_AVAILABLE g); simpl; [|by left].
  destruct dir as [files|]; [|by left].
  destruct (_load_all_embeddings files) as [[X ids]|e]; [|by left].
  case_decide as Hn; [by left|].
  destruct (normalize_rows X) as [Xn|]; [|by left].
  destruct (index_build _) as [index|]; [|by left].
  simpl. right. split; [done|]. by intros ->.
Qed.

(** A build leaves the index either unset with an empty id list, or set
    over the ids the loader returned, which are then not empty and as many
    as the rows of the loaded matrix.  It never leaves an index without
    ids or ids without an index. *)
Theorem build_faiss_all_or_nothing (dir : option (list batch_file)) (g : globals) :
  FAISS_AVAILABLE (build_faiss dir g) = FAISS_AVAILABLE g
  ∧ ((faiss_index (build_faiss dir g) = None
      ∧ vacancy_ids (build_faiss dir g) = [])
     ∨ ∃ files X ids index,
         dir = Some files
         ∧ FAISS_AVAILABLE g = true
         ∧ _load_all_embeddings files = Ok (X, ids)
         ∧ ids ≠ []
         ∧ len X = Some (length ids)
         ∧ faiss_index (build_faiss dir g) = Some index
         ∧ vacancy_ids (build_faiss dir g) = ids).
Proof.
  unfold build_faiss.
  destruct (FAISS_AVAILABLE g) eqn:Ha; simpl; [|split; [done | by left]].
  destruct dir as [files|]; [|split; [done | by left]].
  destruct (_load_all_embeddings files) as [[X ids]|e] eqn:Hl;
    [|split; [done | by left]].
  case_decide as Hn; [split; [done | by left]|].
  destruct (normalize_rows X) as [Xn|]; [|split; [done | by left]].
  destruct (index_build _) as [index|]; [|split; [done | by left]].
  simpl. split; [done|]. right. exists files, X, ids, index.
  repeat split; try done.
  - intros ->. done.
  - by apply (load_all_rows files).
Qed.

Lemma search_not_ready (g : globals) (query_vec : list F) (k : Z) :
  faiss_index g = None ∨ vacancy_ids g = [] →
  ∃ msg, search_top_k g query_vec k = Raise (Exc RuntimeError msg).
Proof.
  intros Hnot. unfold search_top_k.
  destruct (FAISS_AVAILABLE g); simpl; [|by eexists].
  destruct Hnot as [-> | ->]; [by eexists|].
  destruct (faiss_index g); by eexists.
Qed.

(** After a build, the readiness endpoint and the index statistics
    agree: the system is ready exactly when the index is built, exactly
    when the vacancy count is positive; and whenever it reports not
    ready, every search raises a [RuntimeError]. *)
Theorem ready_report_after_build (dir : option (list batch_file)) (g : globals)
    (VAC_EMBED_DIR : string) :
  let report := Main.ready (build_faiss dir g) in
  let stats := Main.get_index_stats VAC_EMBED_DIR (build_faiss dir g) in
  Main.is_ready report = Main.faiss_built report
  ∧ Main.index_built stats = Main.is_ready report
  ∧ Main.vacancies_count stats = Main.ready_vacancies_count report
  ∧ (Main.is_ready report = true ↔ (0 < Main.vacancies_count stats)%nat)
  ∧ (Main.is_ready report = false →
     ∀ (query_vec : list F) (k : Z),
       ∃ msg, search_top_k (build_faiss dir g) query_vec k
                = Raise (Exc RuntimeError msg)).
Proof.
  intros report stats. unfold report, stats, Main.ready, Main.get_index_stats.
  simpl.
  destruct (build_faiss_cases dir g) as [[Hi Hv] | [[index Hi] Hne]].
  - rewrite Hi, Hv. simpl. repeat split; try done; try lia.
    intros _ q k. apply search_not_ready. by left.
  - rewrite Hi.
    assert (0 < length (vacancy_ids (build_faiss dir g)))%nat as Hlen
      by (destruct (vacancy_ids (build_faiss dir g)); [done | simpl; lia]).
    rewrite (bool_decide_eq_true_2 _ Hlen). simpl.
    repeat split; try done.
Qed.

End IndexLifecycle.

Section EarlyReturn.
Import MatchService.
Context `{SO : StrOps} `{JL : JsonLib} `{PR : Prompts}.
Context `{NP : Numpy} `{FA : !Faiss}.
Context (w : world) (g : LoadEmbeddings.globals).

Lemma fetch_nothing repo (top_idx : list Z) :
  Forall (λ i, in_store repo i = false) top_idx →
  fetch_vacancies_in_order repo top_idx = [].
Proof.
  intros Hmiss. pose proof (fetched_ids repo top_idx) as Hf.
  rewrite (filter_none (λ i, in_store repo i = true)) in Hf.
  - by destruct (fetch_vacancies_in_order repo top_idx).
  - eapply Forall_impl; [exact Hmiss|]. intros i Hi. by rewrite Hi.
Qed.

(** When the store has a record for none of the ids the vector search
    returned, the request ends after preprocessing and embedding with an
    empty result and an empty stage-1 list, the ids of the search in
    [top_idx]; the narrowing model is not called. *)
Theorem match_vacancies_empty_when_store_misses
    request repo n n1 n2 aug_text q_vec top_idx_list :
  preprocess_resume w (resume request) n = (n1, Ok aug_text) →
  embed_query w aug_text n1 = (n2, Ok q_vec) →
  LoadEmbeddings.search_top_k g q_vec (k_faiss request) = Ok top_idx_list →
  top_idx_list ≠ [] →
  Forall (λ i, in_store repo i = false) top_idx_list →
  match_vacancies w g request repo n
    = (n2, Ok (mkResponse top_idx_list [] [])).
Proof.
  intros Hp He Hs Hne Hmiss.
  unfold match_vacancies, match_vacancies_locals, fmap, M_fmap, mbind, M_bind.
  rewrite Hp, He.
  assert (faiss_search g q_vec (k_faiss request) n2 = (n2, Ok top_idx_list)) as ->.
  { unfold faiss_search, try_except, mbind, M_bind, lift. rewrite Hs.
    by destruct top_idx_list. }
  by rewrite (fetch_nothing repo top_idx_list Hmiss).
Qed.

End EarlyReturn.


Lemma ready_report_after_build_witness :
  ∃ msg,
    LoadEmbeddings.search_top_k
      (LoadEmbeddings.build_faiss None
         (LoadEmbeddings.Globals (FA := Reference.faiss) true None []))
      (Sample.vec [2; 0; 1]) 3
    = Raise (Exc RuntimeError msg).
Proof.
  apply (proj2 (proj2 (proj2 (proj2
           (ready_report_after_build None
              (LoadEmbeddings.Globals (FA := Reference.faiss) true None [])
              "/app/data/embeddings/vacancies"))))).
  reflexivity.
Defined.

Lemma match_vacancies_empty_when_store_misses_witness :
  MatchService.match_vacancies Sample.world0 Sample.globals0 Sample.request0
    Scenarios.empty_repo 0%nat
  = (2%nat, Ok (mkResponse [10; 11; 12] [] [])).
Proof.
  apply (match_vacancies_empty_when_store_misses Sample.world0 Sample.globals0
           Sample.request0 Scenarios.empty_repo 0%nat 1%nat 2%nat
           "financial analyst, treasury, reporting" (Sample.vec [2; 0; 1])
           [10; 11; 12]).
  - vm_compute; reflexivity.
  - vm_compute; reflexivity.
  - vm_compute; reflexivity.
  - done.
  - repeat constructor.
Defined.

(** ** The loader, by the listing of the directory *)

Section LoaderListing.
Import LoadEmbeddings.
Context `{NP : Numpy} `{FA : !Faiss}.

Lemma keyed_cons f files :
  keyed (f :: files)
  = match batch_num f, keyed files with
    | Some n, Some ks => Some ((n, f) :: ks)
    | _, _ => None
    end.
Proof.
  unfold keyed. simpl. destruct (batch_num f); simpl; [|done].
  by destruct (mapM _ files).
Qed.

Lemma keyed_perm files files' :
  files ≡ₚ files' → option_Forall2 (≡ₚ) (keyed files) (keyed files').
Proof.
  induction 1 as [|f l l' _ IH|f1 f2 l|l1 l2 l3 _ IH1 _ IH2].
  - by constructor.
  - rewrite !keyed_cons. destruct (batch_num f); [|constructor].
    destruct IH; constructor. by constructor.
  - rewrite !keyed_cons. destruct (batch_num f1), (batch_num f2);
      try constructor; destruct (keyed l); constructor. apply Permutation_swap.
  - destruct IH1; inversion IH2; simplify_eq; constructor. by etrans.
Qed.

Lemma keyed_keys files ks :
  keyed files = Some ks → Some <$> ks.*1 = batch_num <$> files.
Proof.
  revert ks. induction files as [|f files IH]; intros ks H.
  - change (Some [] = Some ks) in H. by simplify_eq.
  - rewrite keyed_cons in H.
    destruct (batch_num f) as [n|] eqn:Hn; [|done].
    destruct (keyed files) as [ks'|]; [|done]. simplify_eq.
    csimpl. by rewrite Hn, (IH ks').
Qed.

Lemma keyed_length files ks : keyed files = Some ks → length ks = length files.
Proof.
  intros H. apply keyed_keys in H. apply (f_equal length) in H.
  by rewrite !length_fmap in H.
Qed.

Lemma NoDup_fmap_eq {A B} (f : A → B) (l : list A) x y :
  NoDup (f <$> l) → x ∈ l → y ∈ l → f x = f y → x = y.
Proof.
  induction l as [|a l IH]; intros Hnd Hx Hy Hf; [by apply elem_of_nil in Hx|].
  csimpl in Hnd. apply NoDup_cons in Hnd as [Ha Hnd].
  apply elem_of_cons in Hx as [->|Hx]; apply elem_of_cons in Hy as [->|Hy].
  - done.
  - exfalso. apply Ha. rewrite Hf. by apply list_elem_of_fmap_2.
  - exfalso. apply Ha. rewrite <- Hf. by apply list_elem_of_fmap_2.
  - by apply IH.
Qed.

Lemma sort_batches_unique ks ks' :
  NoDup ks.*1 → ks ≡ₚ ks' → sort_batches ks = sort_batches ks'.
Proof.
  intros Hnd Hperm.
  assert (Transitive (λ a b : Z * batch_file, a.1 ≤ b.1)) as Htrans
    by (intros a b c; lia).
  apply (Sorted_unique_strong (λ a b : Z * batch_file, a.1 ≤ b.1)).
  - intros a b Ha Hb Hab Hba.
    apply (NoDup_fmap_eq fst ks); [done| | |lia].
    + by rewrite <- (sort_batches_perm ks).
    + by rewrite Hperm, <- (sort_batches_perm ks').
  - apply sort_batches_sorted.
  - apply sort_batches_sorted.
  - by rewrite !sort_batches_perm.
Qed.

(** The order in which the directory lists the batch files does not
    matter: with pairwise different batch numbers, two listings of the
    same files load the same matrix and the same ids, or fail alike. *)
Theorem load_all_embeddings_listing_order files files' :
  files ≡ₚ files' →
  distinct_batch_numbers files →
  _load_all_embeddings files = _load_all_embeddings files'.
Proof.
  intros Hperm Hnd. unfold _load_all_embeddings.
  pose proof (keyed_perm files files' Hperm) as Hk.
  destruct (keyed files) as [ks|] eqn:E; inversion Hk as [? ks' Hp|]; [|done].
  rewrite (sort_batches_unique ks ks'); [done| |done].
  apply keyed_keys in E. unfold distinct_batch_numbers in Hnd.
  rewrite <- E in Hnd. by apply NoDup_fmap in Hnd; [|apply _].
Qed.

Lemma vstack_is_Some {A} (arrays : list (ndarray A)) :
  Forall (λ a, (2 ≤ ndim a)%nat) arrays →
  is_Some (vstack arrays) ↔ arrays ≠ [] ∧ same_trailing_shape arrays.
Proof.
  intros Hall. unfold vstack.
  assert (atleast_2d <$> arrays = arrays) as ->.
  { induction Hall as [|a l Ha _ IH]; [done|].
    csimpl. by rewrite IH, atleast_2d_id. }
  destruct arrays as [|a rest].
  { split; [by intros [? ?] | by intros [? _]]. }
  destruct (forallb _ rest) eqn:Hf.
  - split; [intros _ | by eexists]. split; [done|].
    rewrite forallb_forall in Hf.
    assert (∀ b, b ∈ a :: rest → tail (shape b) = tail (shape a)) as Hhead.
    { intros b [->|Hb]%elem_of_cons; [done|].
      apply list_elem_of_In, Hf in Hb. by apply bool_decide_eq_true in Hb. }
    intros b c Hb Hc. by rewrite (Hhead b Hb), (Hhead c Hc).
  - split; [by intros [? ?]|]. intros [_ Hsame]. exfalso.
    apply not_true_iff_false in Hf. apply Hf, forallb_forall.
    intros b Hb. apply bool_decide_eq_true. apply Hsame; [|by left].
    right. by apply list_elem_of_In.
Qed.

(** The loader returns exactly when every batch file name ends in a
    number, at least one batch loads, and the loaded batches agree on
    the vector dimension. *)
Theorem load_all_embeddings_succeeds_iff files :
  (∃ X ids, _load_all_embeddings files = Ok (X, ids))
  ↔ ∃ ks, keyed files = Some ks
      ∧ (omap load_batch (sort_batches ks).*2).*1 ≠ []
      ∧ same_trailing_shape (omap load_batch (sort_batches ks).*2).*1.
Proof.
  unfold _load_all_embeddings.
  destruct (keyed files) as [ks|]; [|split; [by intros (? & ? & ?) | by intros (? & ? & _)]].
  assert (Forall (λ a : ndarray F, (2 ≤ ndim a)%nat)
                 (omap load_batch (sort_batches ks).*2).*1) as Hnd.
  { apply Forall_fmap. eapply Forall_impl; [apply omap_load_batch_Forall|].
    by intros ? [_ ?]. }
  pose proof (vstack_is_Some _ Hnd) as Hv.
  destruct ((sort_batches ks).*2) as [|f0 fs] eqn:Hs.
  { split; [by intros (? & ? & ?)|]. intros (ks' & ? & Hne & _).
    simplify_eq. rewrite Hs in Hne. by exfalso. }
  rewrite <- Hs in *. clear Hs.
  destruct ((omap load_batch (sort_batches ks).*2).*1) as [|a0 rest] eqn:Ha.
  { split; [by intros (? & ? & ?)|]. intros (ks' & ? & Hne & _).
    by simplify_eq. }
  rewrite <- Ha in *. clear Ha.
  split.
  - intros (X & ids & H). exists ks. split; [done|]. apply Hv.
    destruct (vstack _); [by eexists | done].
  - intros (ks' & ? & Hne & Hsame). simplify_eq.
    destruct (proj2 Hv (conj Hne Hsame)) as [X ->]. by eexists _, _.
Qed.

(** A failing load raises [FileNotFoundError] for an empty listing and
    [ValueError] for every other cause. *)
Theorem load_all_embeddings_failures files e :
  _load_all_embeddings files = Raise e →
  (files = [] ∧ exc_cls e = FileNotFoundError)
  ∨ (files ≠ [] ∧ exc_cls e = ValueError).
Proof.
  unfold _load_all_embeddings. intros H.
  destruct (keyed files) as [ks|] eqn:E.
  - destruct ((sort_batches ks).*2) as [|f0 fs] eqn:Hs.
    + left. split; [|by simplify_eq].
      apply (f_equal length) in Hs. rewrite length_fmap in Hs.
      rewrite (Permutation_length (sort_batches_perm ks)) in Hs.
      rewrite (keyed_length _ _ E) in Hs. by destruct files.
    + right. split.
      * intros ->. change (Some [] = Some ks) in E. by simplify_eq.
      * by repeat case_match; simplify_eq.
  - right. split; [|by simplify_eq].
    intros ->. done.
Qed.

End LoaderListing.

Lemma load_all_embeddings_listing_order_witness :
  LoadEmbeddings._load_all_embeddings Sample.dir
  = LoadEmbeddings._load_all_embeddings (reverse Sample.dir).
Proof.
  apply (load_all_embeddings_listing_order Sample.dir (reverse Sample.dir)).
  - symmetry. apply reverse_Permutation.
  - unfold distinct_batch_numbers. vm_compute. repeat constructor; set_solver.
Defined.

Lemma load_all_embeddings_succeeds_iff_witness :
  ∃ ks,
    LoadEmbeddings.keyed Sample.ragged_dir = Some ks
    ∧ (omap LoadEmbeddings.load_batch (LoadEmbeddings.sort_batches ks).*2).*1 ≠ []
    ∧ same_trailing_shape
        (omap LoadEmbeddings.load_batch (LoadEmbeddings.sort_batches ks).*2).*1.
Proof.
  apply (proj1 (load_all_embeddings_succeeds_iff Sample.ragged_dir)).
  eexists _, _. vm_compute. reflexivity.
Defined.

Lemma load_all_embeddings_failures_witness :
  let unreadable :=
    [@LoadEmbeddings.BatchFile Reference.numpy (Some 0) None
       LoadEmbeddings.IndicesAbsent] in
  (unreadable = [] ∧ exc_cls (Exc ValueError "No embeddings loaded") = FileNotFoundError)
  ∨ (unreadable ≠ [] ∧ exc_cls (Exc ValueError "No embeddings loaded") = ValueError).
Proof.
  apply (load_all_embeddings_failures (NP := Reference.numpy)
           [@LoadEmbeddings.BatchFile Reference.numpy (Some 0) None
              LoadEmbeddings.IndicesAbsent]
           (Exc ValueError "No embeddings loaded")).
  reflexivity.
Defined.

(** ** Retries *)

Section Retries.
Import Retry.
Context `{DL : Delays} {T : Type}.
Context (func : nat → result T) (exceptions : exc → bool).
Context (max_retries : Z) (initial_delay max_delay exponential_base : D).

Notation sched := (schedule initial_delay max_delay exponential_base).
Notation run_loop := (loop func exceptions max_retries exponential_base max_delay).

Lemma loop_retry left attempt e :
  func attempt = Raise e → exceptions e = true →
  Z.of_nat attempt < max_retries →
  d_sleepable (sched attempt) = true →
  run_loop (S left) attempt (sched attempt)
  = Run (ended (run_loop left (S attempt) (sched (S attempt))))
        (S (calls (run_loop left (S attempt) (sched (S attempt)))))
        (sched attempt :: sleeps (run_loop left (S attempt) (sched (S attempt)))).
Proof.
  intros Hf He Hlt Hs. cbn [loop]. rewrite Hf, He, Hs.
  by rewrite decide_True by done.
Qed.

Lemma loop_last left attempt :
  ¬ retryable exceptions (func attempt) ∨ Z.of_nat attempt = max_retries →
  run_loop (S left) attempt (sched attempt)
  = Run (ending_of (func attempt)) 1 [].
Proof.
  intros Hstop. cbn [loop].
  destruct (func attempt) as [v|e]; [done|]. simpl in *.
  destruct (exceptions e); [|done].
  destruct Hstop as [Hn | Hn]; [by exfalso; apply Hn|].
  by rewrite decide_False by lia.
Qed.

Lemma loop_sleep_rejected left attempt :
  retryable exceptions (func attempt) →
  Z.of_nat attempt < max_retries →
  d_sleepable (sched attempt) = false →
  run_loop (S left) attempt (sched attempt)
  = Run (SleepRaised (sched attempt)) 1 [].
Proof.
  intros Hr Hlt Hs. cbn [loop].
  destruct (func attempt) as [v|e]; [done|]. simpl in Hr.
  by rewrite Hr, Hs, decide_True by done.
Qed.

(** The attempts before [j], all failing with a retried exception and
    followed by an accepted sleep. *)
Lemma loop_prefix (j : nat) :
  (Z.of_nat j ≤ max_retries) →
  (∀ i, (i < j)%nat → retryable exceptions (func i)) →
  (∀ i, (i < j)%nat → d_sleepable (sched i) = true) →
  ∀ gap attempt left,
    (attempt + gap = j)%nat →
    run_loop (gap + left) attempt (sched attempt)
    = Run (ended (run_loop left j (sched j)))
          (gap + calls (run_loop left j (sched j)))
          ((sched <$> seq attempt gap) ++ sleeps (run_loop left j (sched j)))%list.
Proof.
  intros Hj Hearlier Hsleep gap.
  induction gap as [|gap IH]; intros attempt left Hgap.
  - assert (attempt = j) as -> by lia. simpl. by destruct (run_loop _ _ _).
  - pose proof (Hearlier attempt ltac:(lia)) as Hr.
    destruct (func attempt) as [v|e] eqn:Hf; [done|]. simpl in Hr.
    change (S gap + left)%nat with (S (gap + left)).
    rewrite (loop_retry _ _ e Hf Hr) by (try lia; apply Hsleep; lia).
    rewrite (IH (S attempt) left) by lia. simpl. done.
Qed.

Lemma sync_wrapper_loop :
  sync_wrapper func exceptions max_retries initial_delay max_delay
               exponential_base
  = run_loop (Z.to_nat (max_retries + 1)) 0%nat (sched 0%nat).
Proof. reflexivity. Qed.

Lemma budget_split (j : nat) :
  Z.of_nat j ≤ max_retries →
  ∃ left, Z.to_nat (max_retries + 1) = (j + S left)%nat.
Proof. intros Hj. exists (Z.to_nat (max_retries + 1) - S j)%nat. lia. Qed.

(** The wrapper calls the function until a call returns, raises an
    exception it does not retry on, or was attempt number [max_retries];
    it ends as that call ended (after exhaustion: with the exception of
    the last attempt), having slept once before each later call, by the
    schedule [initial_delay], then times [exponential_base] capped at
    [max_delay]. *)
Theorem retry_ends_with_last_call (j : nat) :
  (Z.of_nat j ≤ max_retries) →
  (∀ i, (i < j)%nat → retryable exceptions (func i)) →
  (∀ i, (i < j)%nat → d_sleepable (sched i) = true) →
  (¬ retryable exceptions (func j) ∨ Z.of_nat j = max_retries) →
  sync_wrapper func exceptions max_retries initial_delay max_delay
               exponential_base
  = Run (ending_of (func j)) (S j) (sched <$> seq 0 j).
Proof.
  intros Hj Hearlier Hsleep Hstop. rewrite sync_wrapper_loop.
  destruct (budget_split j Hj) as [left ->].
  rewrite (loop_prefix j Hj Hearlier Hsleep j 0%nat (S left)) by lia.
  rewrite (loop_last left j Hstop). simpl.
  by rewrite Nat.add_1_r, app_nil_r.
Qed.

(** A delay that [time.sleep] rejects ends the run: the exception of the
    sleep replaces the one of the failed attempt, and no further call is
    made. *)
Theorem retry_stops_on_rejected_delay (j : nat) :
  (Z.of_nat j < max_retries) →
  (∀ i, (i ≤ j)%nat → retryable exceptions (func i)) →
  (∀ i, (i < j)%nat → d_sleepable (sched i) = true) →
  d_sleepable (sched j) = false →
  sync_wrapper func exceptions max_retries initial_delay max_delay
               exponential_base
  = Run (SleepRaised (sched j)) (S j) (sched <$> seq 0 j).
Proof.
  intros Hj Hearlier Hsleep Hrej. rewrite sync_wrapper_loop.
  destruct (budget_split j ltac:(lia)) as [left ->].
  rewrite (loop_prefix j) with (gap := j) (attempt := 0%nat) (left := S left);
    [|lia|intros; apply Hearlier; lia|done|lia].
  rewrite (loop_sleep_rejected left j) by (try done; apply Hearlier; lia).
  simpl. by rewrite Nat.add_1_r, app_nil_r.
Qed.

Lemma loop_calls_pos left attempt delay :
  (calls (run_loop (S left) attempt delay) ≠ 0)%nat.
Proof.
  cbn [loop]. destruct (func attempt); [simpl; lia|].
  destruct (exceptions _); [|simpl; lia].
  case_decide; [|simpl; lia]. destruct (d_sleepable _); simpl; lia.
Qed.

Lemma loop_bounds left attempt :
  max_retries + 1 ≤ Z.of_nat attempt + Z.of_nat left →
  let r := run_loop left attempt (sched attempt) in
  (calls r ≤ left)%nat
  ∧ length (sleeps r) = (calls r - 1)%nat
  ∧ sleeps r = sched <$> seq attempt (length (sleeps r))
  ∧ Forall (λ d, d_sleepable d = true) (sleeps r)
  ∧ (ended r = FellThrough ↔ left = 0%nat).
Proof.
  revert attempt. induction left as [|left IH]; intros attempt Hleft.
  { simpl. repeat split; done. }
  cbn zeta. cbn [loop].
  destruct (func attempt) as [v|e];
    [simpl; repeat split; (lia || done)|].
  destruct (exceptions e); [|simpl; repeat split; (lia || done)].
  case_decide; [|simpl; repeat split; (lia || done)].
  destruct (d_sleepable (sched attempt)) eqn:Hs;
    [|simpl; repeat split; (lia || done)].
  change (d_min (d_mul (sched attempt) exponential_base) max_delay)
    with (sched (S attempt)).
  destruct (IH (S attempt)) as (Hc & Hl & Hsl & Hall & Hf); [lia|].
  destruct left as [|left']; [lia|].
  pose proof (loop_calls_pos left' (S attempt) (sched (S attempt))) as Hpos.
  cbn [ended calls sleeps]. split; [lia|]. split.
  { cbn [length]. rewrite Hl. lia. }
  split; [cbn [length seq]; rewrite fmap_cons; f_equal; exact Hsl|].
  split; [by constructor|].
  rewrite Hf. split; intros; lia.
Qed.

(** Whatever the function does, the wrapper makes at most
    [max_retries + 1] calls, sleeps once between two calls and never after
    the last, every time for the scheduled delay, and returns without a
    result ([None]) exactly when [max_retries] is negative. *)
Theorem retry_budget :
  let r := sync_wrapper func exceptions max_retries initial_delay max_delay
                        exponential_base in
  (Z.of_nat (calls r) ≤ Z.max 0 (max_retries + 1))
  ∧ length (sleeps r) = (calls r - 1)%nat
  ∧ sleeps r = sched <$> seq 0 (length (sleeps r))
  ∧ Forall (λ d, d_sleepable d = true) (sleeps r)
  ∧ (ended r = FellThrough ↔ max_retries < 0).
Proof.
  rewrite sync_wrapper_loop.
  destruct (loop_bounds (Z.to_nat (max_retries + 1)) 0%nat)
    as (Hc & Hl & Hs & Hall & Hf); [lia|].
  cbn zeta in *.
  repeat split; try done; try lia; rewrite Hf; lia.
Qed.

End Retries.

Lemma retry_ends_with_last_call_witness :
  Retry.sync_wrapper Scenarios.flaky is_RuntimeError 3
    (Scenarios.seconds 1) (Scenarios.seconds 10) (Scenarios.seconds 2)
  = Retry.Run (ending_of (Scenarios.flaky 2)) 3
      (Retry.schedule (Scenarios.seconds 1) (Scenarios.seconds 10)
         (Scenarios.seconds 2) <$> seq 0 2).
Proof.
  apply (retry_ends_with_last_call (DL := Scenarios.float_delays)
           Scenarios.flaky is_RuntimeError 3
           (Scenarios.seconds 1) (Scenarios.seconds 10) (Scenarios.seconds 2) 2).
  - lia.
  - intros [|[|i]] Hi; [reflexivity|reflexivity|lia].
  - intros [|[|i]] Hi; [reflexivity|reflexivity|lia].
  - left. intros Hr. exact Hr.
Defined.

Lemma retry_stops_on_rejected_delay_witness :
  Retry.sync_wrapper Scenarios.broken is_RuntimeError 3
    (Scenarios.seconds 1) (Scenarios.seconds 10) (Scenarios.seconds (-2))
  = Retry.Run
      (Retry.SleepRaised
         (Retry.schedule (Scenarios.seconds 1) (Scenarios.seconds 10)
            (Scenarios.seconds (-2)) 1))
      2
      (Retry.schedule (Scenarios.seconds 1) (Scenarios.seconds 10)
         (Scenarios.seconds (-2)) <$> seq 0 1).
Proof.
  apply (retry_stops_on_rejected_delay (DL := Scenarios.float_delays)
           Scenarios.broken is_RuntimeError 3
           (Scenarios.seconds 1) (Scenarios.seconds 10) (Scenarios.seconds (-2)) 1).
  - lia.
  - intros i Hi. reflexivity.
  - intros [|i] Hi; [reflexivity|lia].
  - reflexivity.
Defined.

(** ** Documents read from the store *)

Section Documents.
Import Mongo.
Context {V : Type}.

Lemma filter_id_delete (doc : gmap string V) :
  filter (λ kv, kv.1 ≠ "_id") doc = delete "_id" doc.
Proof.
  apply map_eq. intros k. destruct (decide (k = "_id")) as [->|Hk].
  - rewrite lookup_delete_eq. apply map_lookup_filter_None. right.
    intros x _ Hx. by apply Hx.
  - rewrite lookup_delete_ne by done.
    destruct (doc !! k) as [x|] eqn:E.
    + by apply map_lookup_filter_Some.
    + apply map_lookup_filter_None. by left.
Qed.

Lemma sanitize_mongo_doc_delete (doc : option (gmap string V)) :
  sanitize_mongo_doc doc = delete "_id" <$> doc.
Proof.
  destruct doc as [doc|]; [|done]. simpl. case_decide as Hid.
  - by rewrite filter_id_delete.
  - rewrite delete_id; [done|]. by apply eq_None_not_Some.
Qed.

(** Sanitizing removes the key [_id] and nothing else: every other key of
    a document keeps its value, a list keeps its length and order, and
    sanitizing twice is sanitizing once. *)
Theorem sanitize_removes_only_id (doc : option (gmap string V))
    (docs : list (gmap string V)) :
  sanitize_mongo_doc doc = delete "_id" <$> doc
  ∧ sanitize_many docs = delete "_id" <$> docs
  ∧ sanitize_many (sanitize_many docs) = sanitize_many docs.
Proof.
  assert (∀ l : list (gmap string V), sanitize_many l = delete "_id" <$> l)
    as Hmany.
  { intros l. unfold sanitize_many. apply list_fmap_ext. intros i d _.
    rewrite sanitize_mongo_doc_delete. simpl. by case_decide. }
  split; [apply sanitize_mongo_doc_delete|]. split; [apply Hmany|].
  rewrite !Hmany, <- list_fmap_compose. apply list_fmap_ext.
  intros i d _. simpl. apply delete_id, lookup_delete_eq.
Qed.

End Documents.
